(** * xmler.py: generate, archive, parse and aggregate synthetic records

    A shallow embedding of [src/xmler.py] and the properties of its
    pipeline.  The program draws random records, writes each one as a
    small XML document, packs the documents into zip archives, reads the
    archives back and folds the decoded records into two tables.

    Conventions of the embedding:
    - Python [int] is [Z]; [str] is [string]; [bytes] is [list ascii].
    - An exception is a value of [exn]; a computation that may raise and
      that reads or writes some state [S] has type [M S A].
    - The libraries the program calls ([secrets], [lxml], [zipfile],
      [pandas], [multiprocessing]) are modelled by what their
      documentation promises, on the fragment the program uses. *)

From Stdlib Require Import ZArith String Ascii List Bool Lia Permutation.
From Stdlib Require Import DecimalString DecimalZ.
From stdpp Require Import base option list gmap strings.

Import ListNotations.
Local Open Scope string_scope.
Local Open Scope list_scope.
Local Open Scope Z_scope.

(** ** Bytes and characters *)

Definition bytes := list ascii.

(** [s.encode()] of an ASCII string: the bytes of a literal. *)
Definition B (s : string) : bytes := list_ascii_of_string s.

Definition dquote : ascii := Eval cbv in ascii_of_nat 34.
Definition squote : ascii := Eval cbv in ascii_of_nat 39.

Definition in_range (lo hi c : ascii) : bool :=
  (nat_of_ascii lo <=? nat_of_ascii c)%nat && (nat_of_ascii c <=? nat_of_ascii hi)%nat.

Definition is_digit (c : ascii) : bool := in_range "0" "9" c.
Definition is_lower (c : ascii) : bool := in_range "a" "z" c.
Definition is_upper (c : ascii) : bool := in_range "A" "Z" c.
Definition is_alpha (c : ascii) : bool := is_lower c || is_upper c.

(** XML white space: space, tab, line feed, carriage return. *)
Definition is_space (c : ascii) : bool :=
  let n := nat_of_ascii c in
  (n =? 32)%nat || (n =? 9)%nat || (n =? 10)%nat || (n =? 13)%nat.

Definition is_name_start (c : ascii) : bool :=
  is_alpha c || Ascii.eqb c "_" || Ascii.eqb c ":".

Definition is_name_char (c : ascii) : bool :=
  is_name_start c || is_digit c || Ascii.eqb c "-" || Ascii.eqb c ".".

(** ** Errors and the state-and-exception monad *)

Inductive exn : Type :=
| ValueError
| AttributeError
| XMLSyntaxError
| FileNotFoundError
| BadZipFile
| KeyError.

Definition result (A : Type) : Type := (exn + A)%type.

Definition M (S A : Type) : Type := S -> result A * S.

Definition ret {S A} (a : A) : M S A := fun s => (inr a, s).
Definition raise {S A} (e : exn) : M S A := fun s => (inl e, s).
Definition bind {S A B} (m : M S A) (k : A -> M S B) : M S B :=
  fun s => match m s with
           | (inr a, s') => k a s'
           | (inl e, s') => (inl e, s')
           end.

Declare Scope monad_scope.
Delimit Scope monad_scope with monad.
Notation "'let*' x ':=' m 'in' k" := (bind m (fun x => k))
  (at level 10, x name, m at level 100, k at level 200) : monad_scope.
Local Open Scope monad_scope.

(** Run [m] [n] times, left to right, collecting the results. *)
Fixpoint replicateM {S A} (n : nat) (m : M S A) : M S (list A) :=
  match n with
  | O => ret []
  | Datatypes.S n' => let* x := m in let* xs := replicateM n' m in ret (x :: xs)
  end.

(** ** [lxml.etree]: element trees, written and parsed

    The element tree of [lxml.etree].

    An element has a tag, attributes in insertion order and children in
    document order.  Text and tails are not part of the model: the
    program never writes them and never reads them. *)

Module etree.

Unset Elimination Schemes.
Inductive Element : Type :=
| Elem (tag : string) (attrib : list (string * string)) (children : list Element).
Set Elimination Schemes.

Definition tag (e : Element) : string := let 'Elem t _ _ := e in t.
Definition attrib (e : Element) : list (string * string) := let 'Elem _ a _ := e in a.
Definition children (e : Element) : list Element := let 'Elem _ _ c := e in c.

(** [e.get(key)]: the attribute's value, [None] when it is missing. *)
Fixpoint assoc (key : string) (l : list (string * string)) : option string :=
  match l with
  | [] => None
  | (k, v) :: l' => if String.eqb k key then Some v else assoc key l'
  end.

Definition get (e : Element) (key : string) : option string := assoc key (attrib e).

(** [e.iter()]: the element and all its descendants, in document order. *)
Fixpoint iter (e : Element) : list Element :=
  let 'Elem _ _ cs := e in e :: flat_map iter cs.

(** [e.iter(t)]: the same, keeping the elements whose tag is [t]. *)
Definition iter_tag (t : string) (e : Element) : list Element :=
  List.filter (fun x => String.eqb (tag x) t) (iter e).

(** The descendants of [e], without [e] itself. *)
Definition descendants (e : Element) : list Element := flat_map iter (children e).

(** [e.find(".//var[@name='n']")]: the first descendant with tag [var]
    whose [name] attribute is [n]. *)
Definition opt_eqb (o : option string) (s : string) : bool :=
  match o with Some x => String.eqb x s | None => false end.

Definition find_var (n : string) (e : Element) : option Element :=
  List.find (fun x => String.eqb (tag x) "var" && opt_eqb (get x "name") n)
            (descendants e).

(** [e.find(t)]: the first child of [e] with tag [t]. *)
Definition find_child (t : string) (e : Element) : option Element :=
  List.find (fun x => String.eqb (tag x) t) (children e).

(** ** Writing a tree: [ElementTree.write]

    The default serialisation: no declaration, no indentation,
    attributes in order, an element without children as an empty-element
    tag.  Attribute values are escaped the way libxml2 escapes them. *)

Definition escape_attr_char (c : ascii) : bytes :=
  if Ascii.eqb c "&" then B "&amp;"
  else if Ascii.eqb c "<" then B "&lt;"
  else if Ascii.eqb c ">" then B "&gt;"
  else if Ascii.eqb c dquote then B "&quot;"
  else if (nat_of_ascii c =? 9)%nat then B "&#9;"
  else if (nat_of_ascii c =? 10)%nat then B "&#10;"
  else if (nat_of_ascii c =? 13)%nat then B "&#13;"
  else [c].

Definition escape_attr (v : string) : bytes :=
  flat_map escape_attr_char (list_ascii_of_string v).

Definition write_attr (kv : string * string) : bytes :=
  B " " ++ B (fst kv) ++ B "=" ++ [dquote] ++ escape_attr (snd kv) ++ [dquote].

Fixpoint tostring (e : Element) : bytes :=
  let 'Elem t a cs := e in
  B "<" ++ B t ++ flat_map write_attr a ++
  match cs with
  | [] => B "/>"
  | _ => B ">" ++ flat_map tostring cs ++ B "</" ++ B t ++ B ">"
  end.

(** ** Reading a tree: [etree.parse]

    A parser for the element fragment of XML: start tags with
    attributes, empty-element tags, end tags, nested elements.
    Character data between tags is skipped unread (the tree has no
    text), named and decimal references in attribute values are
    decoded.  Declarations, comments, processing instructions, CDATA
    sections, hexadecimal references and namespaces are outside the
    fragment.  The properties below use the parser on the documents
    [tostring] writes and on documents without any element, where it
    agrees with [lxml]. *)

Fixpoint span (p : ascii -> bool) (s : bytes) : bytes * bytes :=
  match s with
  | [] => ([], [])
  | c :: r => if p c then let (a, b) := span p r in (c :: a, b) else ([], s)
  end.

Definition skip_ws (s : bytes) : bytes := snd (span is_space s).

Definition parse_name (s : bytes) : option (string * bytes) :=
  match s with
  | c :: _ =>
      if is_name_start c
      then let (n, r) := span is_name_char s in Some (string_of_list_ascii n, r)
      else None
  | [] => None
  end.

(** The value of a decimal character reference, digits only. *)
Fixpoint decimal (ds : bytes) (acc : nat) : option nat :=
  match ds with
  | [] => Some acc
  | d :: r => if is_digit d
              then decimal r (10 * acc + (nat_of_ascii d - 48))%nat
              else None
  end.

(** The character a reference [&name;] stands for. *)
Definition decode_entity (name : bytes) : option ascii :=
  let n := string_of_list_ascii name in
  if String.eqb n "amp" then Some "&"%char
  else if String.eqb n "lt" then Some "<"%char
  else if String.eqb n "gt" then Some ">"%char
  else if String.eqb n "quot" then Some dquote
  else if String.eqb n "apos" then Some squote
  else match name with
       | h :: d :: ds =>
           if Ascii.eqb h "#" then
             match decimal (d :: ds) 0 with
             | Some k => if (k <? 128)%nat && (0 <? k)%nat then Some (ascii_of_nat k) else None
             | None => None
             end
           else None
       | _ => None
       end.

(** Decode the raw text between the quotes of an attribute.  [ent] holds
    the name of the reference being read, most recent character first. *)
Fixpoint unescape (s : bytes) (ent : option bytes) : option bytes :=
  match s with
  | [] => match ent with None => Some [] | Some _ => None end
  | c :: r =>
      match ent with
      | None =>
          if Ascii.eqb c "&" then unescape r (Some [])
          else if Ascii.eqb c "<" then None
          else option_map (cons (if is_space c then " "%char else c)) (unescape r None)
      | Some e =>
          if Ascii.eqb c ";"
          then match decode_entity (rev e) with
               | Some ch => option_map (cons ch) (unescape r None)
               | None => None
               end
          else unescape r (Some (c :: e))
      end
  end.

(** A quoted attribute value, and what follows it. *)
Definition parse_attr_value (s : bytes) : option (string * bytes) :=
  match s with
  | q :: r =>
      if Ascii.eqb q dquote || Ascii.eqb q squote then
        let (raw, r') := span (fun c => negb (Ascii.eqb c q)) r in
        match r' with
        | _ :: r'' =>
            match unescape raw None with
            | Some v => Some (string_of_list_ascii v, r'')
            | None => None
            end
        | [] => None
        end
      else None
  | [] => None
  end.

(** The attributes of a start tag: each one after white space, no name
    twice.  Stops in front of [>] or [/>]. *)
Fixpoint parse_attrs (fuel : nat) (s : bytes) (acc : list (string * string))
  : option (list (string * string) * bytes) :=
  match fuel with
  | O => None
  | Datatypes.S fuel' =>
      let (ws, r) := span is_space s in
      match r with
      | c :: _ =>
          if is_name_start c then
            match ws with
            | [] => None
            | _ =>
                match parse_name r with
                | Some (k, r1) =>
                    match skip_ws r1 with
                    | eq :: r2 =>
                        if Ascii.eqb eq "=" then
                          match parse_attr_value (skip_ws r2) with
                          | Some (v, r3) =>
                              if existsb (String.eqb k) (map fst acc) then None
                              else parse_attrs fuel' r3 (acc ++ [(k, v)])
                          | None => None
                          end
                        else None
                    | [] => None
                    end
                | None => None
                end
            end
          else Some (acc, r)
      | [] => None
      end
  end.

Definition skip_text (s : bytes) : bytes :=
  snd (span (fun c => negb (Ascii.eqb c "<")) s).

(** A start tag up to, not including, its closing [>] or [/>]. *)
Definition parse_start_tag (s : bytes)
  : option (string * list (string * string) * bytes) :=
  match s with
  | lt :: s1 =>
      if Ascii.eqb lt "<" then
        match parse_name s1 with
        | Some (t, s2) =>
            match parse_attrs (Datatypes.S (length s2)) s2 [] with
            | Some (a, s3) => Some (t, a, s3)
            | None => None
            end
        | None => None
        end
      else None
  | [] => None
  end.

(** The end tag of element [t]. *)
Definition parse_end_tag (t : string) (s : bytes) : option bytes :=
  match s with
  | lt :: sl :: s1 =>
      if Ascii.eqb lt "<" && Ascii.eqb sl "/" then
        match parse_name s1 with
        | Some (t', s2) =>
            match skip_ws s2 with
            | gt :: s3 => if Ascii.eqb gt ">" && String.eqb t' t then Some s3 else None
            | [] => None
            end
        | None => None
        end
      else None
  | _ => None
  end.

Fixpoint parse_element (fuel : nat) (s : bytes) : option (Element * bytes) :=
  match fuel with
  | O => None
  | Datatypes.S fuel' =>
      match parse_start_tag s with
      | Some (t, a, c :: s1) =>
          if Ascii.eqb c ">" then
            match parse_content fuel' s1 with
            | Some (cs, s2) =>
                match parse_end_tag t s2 with
                | Some s3 => Some (Elem t a cs, s3)
                | None => None
                end
            | None => None
            end
          else if Ascii.eqb c "/" then
            match s1 with
            | gt :: s2 => if Ascii.eqb gt ">" then Some (Elem t a [], s2) else None
            | [] => None
            end
          else None
      | _ => None
      end
  end

(** The children of an element, up to (not including) its end tag. *)
with parse_content (fuel : nat) (s : bytes) : option (list Element * bytes) :=
  match fuel with
  | O => None
  | Datatypes.S fuel' =>
      match skip_text s with
      | lt :: c :: r =>
          if Ascii.eqb c "/" then Some ([], lt :: c :: r)
          else
            match parse_element fuel' (lt :: c :: r) with
            | Some (e, r1) =>
                match parse_content fuel' r1 with
                | Some (es, r2) => Some (e :: es, r2)
                | None => None
                end
            | None => None
            end
      | _ => None
      end
  end.

(** [parse(file).getroot()]: one root element, white space around
    it allowed, nothing else. *)
Definition parse (file : bytes) : option Element :=
  match parse_element (Datatypes.S (length file)) (skip_ws file) with
  | Some (root, r) => match skip_ws r with [] => Some root | _ => None end
  | None => None
  end.

(** Trees that [lxml] builds and the parser reads back: tags and
    attribute names are XML names, no attribute name twice. *)
Definition name_ok (n : string) : bool :=
  match list_ascii_of_string n with
  | c :: r => is_name_start c && forallb is_name_char r
  | [] => false
  end.

Fixpoint distinct (l : list string) : bool :=
  match l with
  | [] => true
  | x :: r => negb (existsb (String.eqb x) r) && distinct r
  end.

Fixpoint wf_tree (e : Element) : bool :=
  let 'Elem t a cs := e in
  name_ok t && forallb name_ok (map fst a) && distinct (map fst a) && forallb wf_tree cs.

(** Fuel that is enough to parse a tree, and its children. *)
Fixpoint need (e : Element) : nat :=
  let 'Elem _ _ cs := e in
  Datatypes.S (Datatypes.S (list_sum (map (fun c => Datatypes.S (need c)) cs))).

Definition cneed (cs : list Element) : nat :=
  Datatypes.S (list_sum (map (fun c => Datatypes.S (need c)) cs)).

End etree.

(** ** [secrets]: values from the system's random source

    The random source is a tape of integers that is read left to right.
    What [secrets] promises of each function is kept: the range of
    [randbelow], the number of bytes behind a token, the alphabet and
    the length of a token's text.  How the bits are spread over the
    range is not part of the model. *)

Module secrets.

Record entropy : Type := Entropy { tape : nat -> Z; pos : nat }.

Definition next_draw : M entropy Z :=
  fun e => (inr (tape e (pos e)), {| tape := tape e; pos := Datatypes.S (pos e) |}).

(** One random byte. *)
Definition random_byte : M entropy Z :=
  let* x := next_draw in ret (x mod 256).

(** [os.urandom(n)]: [n] random bytes; a negative size is refused. *)
Definition urandom (n : Z) : M entropy (list Z) :=
  if n <? 0 then raise ValueError else replicateM (Z.to_nat n) random_byte.

(** [secrets.randbelow(n)]: an integer in [[0, n)]; [n] must be positive. *)
Definition randbelow (n : Z) : M entropy Z :=
  if n <=? 0 then raise ValueError
  else let* x := next_draw in ret (x mod n).

Definition token_bytes (nbytes : Z) : M entropy (list Z) := urandom nbytes.

(** [bytes.hex()]: two lower-case hexadecimal digits per byte. *)
Definition hex_digit (d : Z) : ascii :=
  nth (Z.to_nat d) (B "0123456789abcdef") "0"%char.

Fixpoint hex (bs : list Z) : string :=
  match bs with
  | [] => EmptyString
  | b :: r => String (hex_digit (b / 16)) (String (hex_digit (b mod 16)) (hex r))
  end.

Definition token_hex (nbytes : Z) : M entropy string :=
  let* tok := token_bytes nbytes in ret (hex tok).

(** [base64.urlsafe_b64encode]: three bytes become four characters of
    the URL-safe alphabet; a last group of one or two bytes is padded
    with [=]. *)
Definition b64_char (i : Z) : ascii :=
  nth (Z.to_nat i)
      (B "ABCDEFGHIJKLMNOPQRSTUVWXYZabcdefghijklmnopqrstuvwxyz0123456789-_")
      "A"%char.

Fixpoint urlsafe_b64encode (bs : list Z) : bytes :=
  match bs with
  | [] => []
  | [a] => [b64_char (a / 4); b64_char (a mod 4 * 16); "="%char; "="%char]
  | [a; b] =>
      [b64_char (a / 4); b64_char (a mod 4 * 16 + b / 16);
       b64_char (b mod 16 * 4); "="%char]
  | a :: b :: c :: r =>
      b64_char (a / 4) :: b64_char (a mod 4 * 16 + b / 16)
      :: b64_char (b mod 16 * 4 + c / 64) :: b64_char (c mod 64)
      :: urlsafe_b64encode r
  end.

(** [s.rstrip(c)]: [s] without its trailing run of [c]. *)
Fixpoint rstrip (c : ascii) (s : bytes) : bytes :=
  match s with
  | [] => []
  | x :: r =>
      match rstrip c r with
      | [] => if Ascii.eqb x c then [] else [x]
      | r' => x :: r'
      end
  end.

(** The text of a token: its base64 form without the padding, as [str]. *)
Definition urlsafe_text (tok : list Z) : string :=
  string_of_list_ascii (rstrip "=" (urlsafe_b64encode tok)).

Definition token_urlsafe (nbytes : Z) : M entropy string :=
  let* tok := token_bytes nbytes in ret (urlsafe_text tok).

End secrets.

(** [str(n)] of an integer: its decimal digits, with a sign when negative. *)
Definition str (n : Z) : string := NilZero.string_of_int (Z.to_int n).

(** ** [pandas]: data frames

    A frame is its column names and its rows, each row a list of cells.
    A cell holds a string or [None]. *)

Module pandas.

Definition cell : Type := option string.

Record DataFrame : Type := Frame { columns : list string; rows : list (list cell) }.

(** [DataFrame.from_dict({c1: [], c2: []})]: the columns, no rows. *)
Definition from_dict (cols : list string) : DataFrame :=
  {| columns := cols; rows := [] |}.

(** [df.loc[len(df)] = row]: the label [len(df)] is new, the row is
    appended. *)
Definition loc_append (df : DataFrame) (row : list cell) : DataFrame :=
  {| columns := columns df; rows := rows df ++ [row] |}.

(** [pandas.concat(frames)]: the rows of the frames, one frame after the
    other; an empty list of frames is refused.  The frames the program
    passes all have the same columns. *)
Definition concat (frames : list DataFrame) : result DataFrame :=
  match frames with
  | [] => inl ValueError
  | df :: _ => inr {| columns := columns df; rows := flat_map rows frames |}
  end.

End pandas.

(** ** [zipfile]: archives

    An archive is the list of its members in directory order, each a name
    and its contents.  Compression is not visible to the program, which
    gets back the bytes it wrote. *)

Module zipfile.

Definition ZipFile : Type := list (string * bytes).

(** [zf.writestr(name, data)] adds a member at the end of the directory. *)
Definition writestr (zf : ZipFile) (name : string) (data : bytes) : ZipFile :=
  zf ++ [(name, data)].

(** [zf.namelist()]: the member names in directory order. *)
Definition namelist (zf : ZipFile) : list string := map fst zf.

(** [zf.open(name)]: the contents of the member called [name]; of two
    members with one name the later one is found. *)
Fixpoint open (zf : ZipFile) (name : string) : option bytes :=
  match zf with
  | [] => None
  | (n, d) :: r =>
      match open r name with
      | Some d' => Some d'
      | None => if String.eqb n name then Some d else None
      end
  end.

End zipfile.

(** ** The world: the random source and the working directory *)

Inductive file : Type :=
| Archive (zf : zipfile.ZipFile)
| Table (df : pandas.DataFrame).

Record world : Type := World { rng : secrets.entropy; fs : gmap string file }.

(** A computation on the random source, run in the world. *)
Definition with_rng {A} (m : M secrets.entropy A) : M world A :=
  fun w => let (r, e) := m (rng w) in (r, {| rng := e; fs := fs w |}).

(** Lift a result into a computation. *)
Definition lift {S A} (r : result A) : M S A := fun s => (r, s).

(** [df.to_csv(path, index=False)]: the file [path] now holds the
    frame: its column names as header, then its rows. *)
Definition to_csv (df : pandas.DataFrame) (path : string) : M world unit :=
  fun w => (inr tt, {| rng := rng w; fs := <[path := Table df]> (fs w) |}).

(** ** [multiprocessing.Pool]

    [Pool.map(f, xs)] runs one task per item.  The tasks finish in an
    order the program does not control: it is given by a list of picks,
    each pick choosing one of the tasks still pending.  The results are
    handed back by position in [xs].  When a task raises, the call
    raises the first exception that came in; the tasks are taken one by
    one here, so that the others still run. *)

Module Pool.

(** Take the [k]-th item out of a list. *)
Fixpoint extract {A} (k : nat) (l : list A) : option (A * list A) :=
  match l with
  | [] => None
  | x :: r =>
      match k with
      | O => Some (x, r)
      | Datatypes.S k' =>
          match extract k' r with
          | Some (y, r') => Some (y, x :: r')
          | None => None
          end
      end
  end.

(** The order in which the pending tasks finish.  When the picks run
    out, the tasks left finish in the order given. *)
Fixpoint schedule {A} (picks : list nat) (pending : list A) : list A :=
  match picks with
  | [] => pending
  | k :: picks' =>
      match extract (k mod length pending) pending with
      | Some (x, rest) => x :: schedule picks' rest
      | None => pending
      end
  end.

(** Number the items from [i] on. *)
Fixpoint enumerate {A} (i : nat) (l : list A) : list (nat * A) :=
  match l with
  | [] => []
  | x :: r => (i, x) :: enumerate (Datatypes.S i) r
  end.

(** Run the tasks in the order given, each on the state the one before
    left, and keep each outcome with the position of its task. *)
Fixpoint run {S A B} (f : A -> M S B) (order : list (nat * A)) (s : S)
  : list (nat * result B) * S :=
  match order with
  | [] => ([], s)
  | (i, x) :: rest =>
      let (r, s1) := f x s in
      let (rs, s2) := run f rest s1 in
      ((i, r) :: rs, s2)
  end.

Fixpoint first_error {B} (done : list (nat * result B)) : option exn :=
  match done with
  | [] => None
  | (_, inl e) :: _ => Some e
  | (_, inr _) :: r => first_error r
  end.

(** The value of the task at position [i]. *)
Fixpoint value_at {B} (i : nat) (done : list (nat * result B)) : option B :=
  match done with
  | [] => None
  | (j, inr b) :: r => if Nat.eqb i j then Some b else value_at i r
  | (_, inl _) :: r => value_at i r
  end.

Definition gather {B} (n : nat) (done : list (nat * result B)) : list B :=
  flat_map (fun i => match value_at i done with Some b => [b] | None => [] end)
           (seq 0 n).

Definition map {S A B} (f : A -> M S B) (xs : list A) (picks : list nat)
  : M S (list B) :=
  fun s =>
    let (done, s') := run f (schedule picks (enumerate 0 xs)) s in
    match first_error done with
    | Some e => (inl e, s')
    | None => (inr (gather (length xs) done), s')
    end.

End Pool.

(** [range(n)] as a list. *)
Definition range (n : Z) : list Z := List.map Z.of_nat (seq 0 (Z.to_nat n)).

(** [enumerate(l)]: each item with its index. *)
Fixpoint enumerate_from {A} (i : Z) (l : list A) : list (Z * A) :=
  match l with
  | [] => []
  | x :: r => (i, x) :: enumerate_from (i + 1) r
  end.

(** The decorator [print_duration_time]: the wrapper runs the function
    and returns nothing; an exception passes through.  The line it
    prints is not part of the model. *)
Definition print_duration_time {S A} (func : M S A) : M S unit :=
  let* _ := func in ret tt.

(** ** The records of the pipeline *)

(** The values drawn for one document. *)
Record record : Type := Rec {
  rec_id : string;
  rec_level : Z;
  rec_objects : list string
}.

(** The dictionary [LXML.read] returns.  [get] gives [None] for a
    missing attribute, so every field may hold [None]. *)
Record dict : Type := Dict {
  d_id : option string;
  d_level : option string;
  d_object_names : list (option string)
}.

(** What a generator yields until it is exhausted or raises. *)
Definition Iterator (A : Type) : Type := (list A * option exn)%type.

(** ** class [LXML] *)

Module LXML.

Import etree secrets.

Record t : Type := New {
  xml_count : Z;
  token_length : Z;
  level_max : Z;
  name_length : Z;
  objects_max : Z
}.

(** The draws of one turn of the loop of [generate], in the order the
    program makes them: the number of objects, a name for each, the id,
    the level. *)
Definition draw (self : t) : M entropy record :=
  let* n := randbelow (objects_max self) in
  let* names := replicateM (Z.to_nat (n + 1)) (token_urlsafe (name_length self)) in
  let* i := token_hex (token_length self) in
  let* l := randbelow (level_max self) in
  ret {| rec_id := i; rec_level := l + 1; rec_objects := names |}.

(** The tree the loop builds from the values drawn. *)
Definition encode (r : record) : Element :=
  let objects :=
    Elem "objects" []
         (List.map (fun n => Elem "object" [("name", n)] []) (rec_objects r)) in
  Elem "root" []
       [Elem "var" [("name", "id"); ("value", rec_id r)] [];
        Elem "var" [("name", "level"); ("value", str (rec_level r))] [];
        objects].

(** The bytes the loop yields: the tree, written. *)
Definition document (r : record) : bytes := tostring (encode r).

(** The records of [n] turns of the loop; an exception ends it. *)
Fixpoint draw_all (self : t) (n : nat) (e : entropy) : Iterator record * entropy :=
  match n with
  | O => (([], None), e)
  | Datatypes.S n' =>
      match draw self e with
      | (inl x, e1) => (([], Some x), e1)
      | (inr r, e1) =>
          let '((rs, x), e2) := draw_all self n' e1 in ((r :: rs, x), e2)
      end
  end.

(** [LXML.generate]: one document per turn, [xml_count] turns. *)
Definition generate (self : t) (e : entropy) : Iterator bytes * entropy :=
  let '((rs, x), e') := draw_all self (Z.to_nat (xml_count self)) e in
  ((List.map document rs, x), e').

(** [LXML.read]: parse, look up the two [var] entries anywhere below the
    root and the [objects] child of the root, then read the attributes.
    A lookup that finds nothing returns [None], and calling [get] or
    [iter] on [None] raises [AttributeError]. *)
Definition read (file : bytes) : result dict :=
  match parse file with
  | None => inl XMLSyntaxError
  | Some root =>
      let _id := find_var "id" root in
      let level := find_var "level" root in
      let objects := find_child "objects" root in
      match _id, level, objects with
      | Some i, Some l, Some o =>
          inr {| d_id := get i "value";
                 d_level := get l "value";
                 d_object_names :=
                   List.map (fun obj => get obj "name") (iter_tag "object" o) |}
      | _, _, _ => inl AttributeError
      end
  end.

End LXML.

(** ** class [CSV] *)

Module CSV.

Import pandas.

(** [parse_level]: one row [(id, level)] per record of the batch. *)
Definition parse_level (data : list dict) : DataFrame :=
  fold_left (fun df element => loc_append df [d_id element; d_level element])
            data (from_dict ["id"; "level"]).

(** [parse_objects]: one row [(id, name)] per object of each record. *)
Definition parse_objects (data : list dict) : DataFrame :=
  fold_left
    (fun df element =>
       fold_left (fun df obj_name => loc_append df [d_id element; obj_name])
                 (d_object_names element) df)
    data (from_dict ["id"; "object_name"]).

(** [CSV.write]: both tables are computed batch by batch in the pool,
    the parts are concatenated, then the two files are written.
    [picks1] and [picks2] are the completion orders of the two calls of
    [map]. *)
Definition write (data : list (list dict)) (picks1 picks2 : list nat) : M world unit :=
  print_duration_time
    (let* parts1 := Pool.map (fun d => ret (parse_level d)) data picks1 in
     let* df1 := lift (concat parts1) in
     let* parts2 := Pool.map (fun d => ret (parse_objects d)) data picks2 in
     let* df2 := lift (concat parts2) in
     let* _ := to_csv df1 "levels.csv" in
     to_csv df2 "objects.csv").

End CSV.

(** ** class [Zip] *)

Module Zip.

Record t : Type := New {
  xml : LXML.t;
  generated_files : list string;
  loaded_data : list (list dict)
}.

(** [Zip(xml)]. *)
Definition init (xml : LXML.t) : t :=
  {| xml := xml; generated_files := []; loaded_data := [] |}.

(** [Zip.create]: the archive [prefix.zip] is opened for writing, which
    empties it; every document the generator yields becomes the member
    [i.xml]; the archive is closed, also when the generator raises. *)
Definition create (self : t) (prefix : Z) : M world string :=
  fun w =>
    let zip_name := str prefix +:+ ".zip" in
    let '((docs, x), e) := LXML.generate (xml self) (rng w) in
    let zf :=
      fold_left (fun zf '(i, xml_data) => zipfile.writestr zf (str i +:+ ".xml") xml_data)
                (enumerate_from 0 docs) [] in
    let w' := {| rng := e; fs := <[zip_name := Archive zf]> (fs w) |} in
    match x with
    | None => (inr zip_name, w')
    | Some err => (inl err, w')
    end.

(** [Zip.generate_files]: the archives [0 .. count-1] are built in the
    pool; the names the pool hands back are kept in [generated_files]. *)
Definition generate_files (count : Z) (picks : list nat) : M (t * world) unit :=
  print_duration_time
    (fun '(self, w) =>
       match Pool.map (create self) (range count) picks w with
       | (inr names, w') =>
           (inr tt, ({| xml := xml self; generated_files := names;
                        loaded_data := loaded_data self |}, w'))
       | (inl err, w') => (inl err, (self, w'))
       end).

(** Decode the members in the order given, up to the first failure. *)
Fixpoint read_members (zf : zipfile.ZipFile) (names : list string) : result (list dict) :=
  match names with
  | [] => inr []
  | filename :: rest =>
      match zipfile.open zf filename with
      | None => inl KeyError
      | Some f =>
          match LXML.read f with
          | inl err => inl err
          | inr d =>
              match read_members zf rest with
              | inl err => inl err
              | inr ds => inr (d :: ds)
              end
          end
      end
  end.

(** [Zip.read]: every member of the archive, decoded, in directory
    order. *)
Definition read (self : t) (zip_file : string) : M world (list dict) :=
  fun w =>
    match fs w !! zip_file with
    | None => (inl FileNotFoundError, w)
    | Some (Table _) => (inl BadZipFile, w)
    | Some (Archive zf) => (read_members zf (zipfile.namelist zf), w)
    end.

(** The loop of [read_generated] over the names still to read. *)
Fixpoint read_loop (filenames : list string) : M (t * world) unit :=
  match filenames with
  | [] => ret tt
  | filename :: rest =>
      fun '(self, w) =>
        match read self filename w with
        | (inr batch, w') =>
            read_loop rest
              ({| xml := xml self; generated_files := generated_files self;
                  loaded_data := loaded_data self ++ [batch] |}, w')
        | (inl err, w') => (inl err, (self, w'))
        end
  end.

(** [Zip.read_generated]: every archive of [generated_files] is read and
    its batch appended to [loaded_data]. *)
Definition read_generated : M (t * world) unit :=
  print_duration_time (fun '(self, w) => read_loop (generated_files self) (self, w)).

End Zip.

(** The constants of the program and the objects its main block builds. *)
Definition TOKEN_LENGTH : Z := 64.
Definition NAME_LENGTH : Z := 32.
Definition OBJECTS_MAX : Z := 10.
Definition LEVEL_MAX : Z := 100.
Definition XML_COUNT : Z := 100.

Definition lxml_helper : LXML.t :=
  {| LXML.xml_count := XML_COUNT; LXML.token_length := TOKEN_LENGTH;
     LXML.level_max := LEVEL_MAX; LXML.name_length := NAME_LENGTH;
     LXML.objects_max := OBJECTS_MAX |}.


(** ** Vocabulary of the properties *)

(** What decoding the document of [r] is expected to give: the id, the
    level as the decimal string that was written, the names in order. *)
Definition decoded (r : record) : dict :=
  {| d_id := Some (rec_id r);
     d_level := Some (str (rec_level r));
     d_object_names := List.map Some (rec_objects r) |}.

(** The records and the documents of one run of [LXML.generate]. *)
Definition records_of (self : LXML.t) (e : secrets.entropy) : list record :=
  fst (fst (LXML.draw_all self (Z.to_nat (LXML.xml_count self)) e)).

Definition documents_of (self : LXML.t) (e : secrets.entropy) : list bytes :=
  fst (fst (LXML.generate self e)).

(** Character classes of the generated strings. *)
Definition is_hex_char (c : ascii) : bool := is_digit c || in_range "a" "f" c.

Definition is_urlsafe_char (c : ascii) : bool :=
  is_alpha c || is_digit c || Ascii.eqb c "-" || Ascii.eqb c "_".

Definition all_chars (p : ascii -> bool) (s : string) : bool :=
  forallb p (list_ascii_of_string s).

(** [s] is the hexadecimal form of [k] bytes. *)
Definition is_token_hex (k : Z) (s : string) : Prop :=
  exists tok, 0 <= k /\ length tok = Z.to_nat k /\ s = secrets.hex tok.

(** [s] is the URL-safe text of [k] bytes. *)
Definition is_token_text (k : Z) (s : string) : Prop :=
  exists tok, 0 <= k /\ length tok = Z.to_nat k /\ s = secrets.urlsafe_text tok.

(** The tape the examples run on, and a small configuration. *)
Definition tape0 : secrets.entropy :=
  {| secrets.tape := fun n => Z.of_nat (n * 37 + 11); secrets.pos := 0 |}.

Definition small_helper : LXML.t :=
  {| LXML.xml_count := 3; LXML.token_length := 2; LXML.level_max := 100;
     LXML.name_length := 4; LXML.objects_max := 10 |}.

(** C7 of a record: level and object count within the configured bounds. *)
Definition in_bounds (self : LXML.t) (r : record) : Prop :=
  1 <= rec_level r <= LXML.level_max self /\
  1 <= Z.of_nat (length (rec_objects r)) <= LXML.objects_max self.

(** C8 of a record as the specification words it: the id has twice the
    token length, every name has the configured name length. *)
Definition lengths_as_stated (self : LXML.t) (r : record) : Prop :=
  Z.of_nat (String.length (rec_id r)) = 2 * LXML.token_length self /\
  all_chars is_hex_char (rec_id r) = true /\
  Forall (fun nm => Z.of_nat (String.length nm) = LXML.name_length self /\
                    all_chars is_urlsafe_char nm = true)
         (rec_objects r).

(** C8 of a record as the program has it: a name is the base64 text of
    [name_length] bytes, four characters for three bytes, unpadded. *)
Definition lengths_as_built (self : LXML.t) (r : record) : Prop :=
  Z.of_nat (String.length (rec_id r)) = 2 * LXML.token_length self /\
  all_chars is_hex_char (rec_id r) = true /\
  Forall (fun nm => Z.of_nat (String.length nm) = (4 * LXML.name_length self + 2) / 3 /\
                    all_chars is_urlsafe_char nm = true)
         (rec_objects r).

(** The names the program gives to archives and to their members. *)
Definition zip_name (prefix : Z) : string := str prefix +:+ ".zip".
Definition member_name (i : Z) : string := str i +:+ ".xml".

(** The archive [Zip.create] writes for the documents [docs]: member
    [i.xml] holds the [i]-th document, counting from [i0]. *)
Definition archive_from (i0 : Z) (docs : list bytes) : zipfile.ZipFile :=
  List.map (fun '(i, d) => (member_name i, d)) (enumerate_from i0 docs).

Definition archive_of (docs : list bytes) : zipfile.ZipFile := archive_from 0 docs.

(** The rows of the two tables for the batches [data]: batch after
    batch, record after record, and for the objects name after name. *)
Definition level_rows (data : list (list dict)) : list (list pandas.cell) :=
  flat_map (fun batch => List.map (fun r => [d_id r; d_level r]) batch) data.

Definition object_rows (data : list (list dict)) : list (list pandas.cell) :=
  flat_map
    (fun batch =>
       flat_map (fun r => List.map (fun o => [d_id r; o]) (d_object_names r)) batch)
    data.

(** The number of objects of the records of all batches. *)
Definition object_count (data : list (list dict)) : nat :=
  list_sum (List.map (fun r => length (d_object_names r)) (List.concat data)).

(** [m] batches of [k] records each. *)
Definition batches (m k : nat) (data : list (list dict)) : Prop :=
  length data = m /\ Forall (fun batch => length batch = k) data.

(** Two batches of three records, one object each. *)
Definition two_batches : list (list dict) :=
  let rec_ (i l o : string) := {| d_id := Some i; d_level := Some l; d_object_names := [Some o] |} in
  [[rec_ "0a" "1" "x"; rec_ "0b" "2" "y"; rec_ "0c" "3" "z"];
   [rec_ "1a" "4" "u"; rec_ "1b" "5" "v"; rec_ "1c" "6" "w"]].

(** The file [name] holds an archive of [n] members. *)
Definition has_archive (n : nat) (name : string) (w : world) : Prop :=
  exists zf, fs w !! name = Some (Archive zf) /\ length zf = n.

(** The world [w] with the members of the archive [name] listed in
    another directory order. *)
Definition reordered (name : string) (zf : zipfile.ZipFile) (w : world) : world :=
  {| rng := rng w; fs := <[name := Archive zf]> (fs w) |}.

(** A small world to run examples in. *)
Definition small_world : world := {| rng := tape0; fs := ∅ |}.

(** The outcome of a pool task whose value is [h] of its item. *)
Definition task_outcome {A B} (h : A -> B) (p : nat * A) : nat * result B :=
  (fst p, inr (h (snd p))).

(** A configuration with which every draw succeeds. *)
Definition valid (self : LXML.t) : Prop :=
  0 < LXML.objects_max self /\ 0 < LXML.level_max self /\
  0 <= LXML.name_length self /\ 0 <= LXML.token_length self.

(** An entry [<var name="n" .../>] somewhere below the root. *)
Definition is_var (n : string) (x : etree.Element) : bool :=
  String.eqb (etree.tag x) "var" && etree.opt_eqb (etree.get x "name") n.






(** A tree with an id entry that has no [value]. *)
Definition tree_without_value : etree.Element :=
  etree.Elem "root" []
    [etree.Elem "var" [("name", "id")] [];
     etree.Elem "var" [("name", "level"); ("value", "7")] [];
     etree.Elem "objects" [] [etree.Elem "object" [("name", "a")] []]].

(** A tree of the usual shape, the [objects] container removed. *)
Definition tree_without_objects : etree.Element :=
  etree.Elem "root" []
    [etree.Elem "var" [("name", "id"); ("value", "ab")] [];
     etree.Elem "var" [("name", "level"); ("value", "7")] []].


(** A document with an id entry that has no [value]. *)
Definition doc_without_value : bytes :=
  B "<root><var name='id'/><var name='level' value='7'/><objects><object name='a'/></objects></root>".

(** A document of the usual shape, the [objects] container removed. *)
Definition doc_without_objects : bytes :=
  B "<root><var name='id' value='ab'/><var name='level' value='7'/></root>".


(** ** Induction on element trees

    The children of an element are a list of elements: the induction
    hypothesis holds for each of them. *)

Section ElementInd.

Import etree.

Variable P : Element -> Prop.
Hypothesis HElem : forall t a cs, Forall P cs -> P (Elem t a cs).

Fixpoint Element_ind (e : Element) : P e :=
  let 'Elem t a cs := e in
  HElem t a cs
    ((fix go (l : list Element) : Forall P l :=
        match l with
        | [] => @List.Forall_nil _ P
        | x :: l' => @List.Forall_cons _ P x l' (Element_ind x) (go l')
        end) cs).

End ElementInd.

(** ** Vocabulary of the further properties *)

(** The file [name] holds the archive [Zip.create] builds from some
    records drawn with [self]: one member per record, [xml_count] of
    them, each record within the configured bounds. *)
Definition built_archive (self : LXML.t) (name : string) (w : world) : Prop :=
  exists rs,
    fs w !! name = Some (Archive (archive_of (List.map LXML.document rs))) /\
    length rs = Z.to_nat (LXML.xml_count self) /\
    Forall (in_bounds self) rs.

(** A batch as [Zip.read] returns it for such an archive. *)
Definition decoded_batch (self : LXML.t) (batch : list dict) : Prop :=
  exists rs,
    batch = List.map decoded rs /\
    length rs = Z.to_nat (LXML.xml_count self) /\
    Forall (in_bounds self) rs.

(** A configuration whose bounds refuse every draw. *)
Definition broken_helper : LXML.t :=
  {| LXML.xml_count := 3; LXML.token_length := 2; LXML.level_max := 100;
     LXML.name_length := 4; LXML.objects_max := 0 |}.

(** An archive whose second member lacks the [objects] container. *)
Definition archive_with_bad_member : zipfile.ZipFile :=
  [("0.xml", doc_without_value); ("1.xml", doc_without_objects)].

Definition world_with_bad_archive : world :=
  {| rng := tape0; fs := {[ "0.zip" := Archive archive_with_bad_member ]} |}.

(** A [Zip] object that lists an archive that is there and one that is
    not. *)
Definition zip_with_missing_file : Zip.t :=
  {| Zip.xml := small_helper;
     Zip.generated_files := ["0.zip"; "9.zip"];
     Zip.loaded_data := [] |}.

Definition world_with_one_archive : world :=
  snd (Zip.create (Zip.init small_helper) 0 small_world).

(** A random source that gives the same draw [c] again and again. *)
Definition const_tape (c : Z) (p : nat) : secrets.entropy :=
  {| secrets.tape := fun _ => c; secrets.pos := p |}.

(** The record every turn of the loop draws from [const_tape c]. *)
Definition const_record (self : LXML.t) (c : Z) : record :=
  {| rec_id := secrets.hex (repeat (c mod 256) (Z.to_nat (LXML.token_length self)));
     rec_level := c mod LXML.level_max self + 1;
     rec_objects :=
       repeat (secrets.urlsafe_text (repeat (c mod 256) (Z.to_nat (LXML.name_length self))))
              (Z.to_nat (c mod LXML.objects_max self + 1)) |}.



Definition some_record : record :=
  {| rec_id := "0a1b"; rec_level := 7; rec_objects := ["x-1"; "y_2"] |}.

(** The three entries of [some_record], the container first. *)
Definition reordered_entries : list etree.Element :=
  match etree.children (LXML.encode some_record) with
  | [i; l; o] => [o; l; i]
  | cs => cs
  end.

(* ================================================================== *)
(** * Properties *)
(* ================================================================== *)

Import etree.

(** ** The scanner *)

Lemma span_stop p c r : p c = false -> span p (c :: r) = ([], c :: r).
Proof. intros H. simpl. now rewrite H. Qed.

Lemma span_app p a c r :
  forallb p a = true -> p c = false -> span p (a ++ c :: r) = (a, c :: r).
Proof.
  intros Ha Hc. induction a as [|x a IH]; simpl in *.
  - now rewrite Hc.
  - apply andb_prop in Ha as [Hx Ha]. rewrite Hx, (IH Ha). reflexivity.
Qed.

Lemma name_start_char c : is_name_start c = true -> is_name_char c = true.
Proof. intros H. unfold is_name_char. now rewrite H. Qed.

Lemma parse_name_app n c r :
  name_ok n = true -> is_name_char c = false ->
  parse_name (B n ++ c :: r) = Some (n, c :: r).
Proof.
  unfold name_ok, B. intros Hn Hc.
  rewrite <- (string_of_list_ascii_of_string n) at 2.
  destruct (list_ascii_of_string n) as [|x l]; [discriminate|].
  apply andb_prop in Hn as [Hx Hl].
  cbn [app parse_name]. rewrite Hx.
  change (x :: l ++ c :: r) with ((x :: l) ++ c :: r).
  rewrite span_app; auto.
  simpl. now rewrite (name_start_char _ Hx), Hl.
Qed.

(** ** Attribute values: escaping and decoding are inverse *)

Lemma nat_of_ascii_eqb c n :
  (n < 256)%nat -> (nat_of_ascii c =? n)%nat = true -> c = ascii_of_nat n.
Proof.
  intros Hn H. apply Nat.eqb_eq in H. rewrite <- H. symmetry. apply ascii_nat_embedding.
Qed.

Lemma escape_char_no_quote c :
  forallb (fun x => negb (Ascii.eqb x dquote)) (escape_attr_char c) = true.
Proof.
  unfold escape_attr_char.
  repeat match goal with
         | |- context [if ?b then _ else _] => destruct b eqn:?; [reflexivity|]
         end.
  simpl. rewrite andb_true_r. apply negb_true_iff. assumption.
Qed.

Lemma escape_no_quote v :
  forallb (fun x => negb (Ascii.eqb x dquote)) (escape_attr v) = true.
Proof.
  unfold escape_attr. induction (list_ascii_of_string v) as [|c l IH]; simpl; [reflexivity|].
  rewrite forallb_app, escape_char_no_quote, IH. reflexivity.
Qed.

Lemma unescape_char c s :
  unescape (escape_attr_char c ++ s) None = option_map (cons c) (unescape s None).
Proof.
  unfold escape_attr_char.
  destruct (Ascii.eqb_spec c "&") as [->|Hamp]; [reflexivity|].
  destruct (Ascii.eqb_spec c "<") as [->|Hlt]; [reflexivity|].
  destruct (Ascii.eqb_spec c ">") as [->|Hgt]; [reflexivity|].
  destruct (Ascii.eqb_spec c dquote) as [->|Hq]; [reflexivity|].
  destruct (nat_of_ascii c =? 9)%nat eqn:H9.
  { apply nat_of_ascii_eqb in H9; [subst c; reflexivity | lia]. }
  destruct (nat_of_ascii c =? 10)%nat eqn:H10.
  { apply nat_of_ascii_eqb in H10; [subst c; reflexivity | lia]. }
  destruct (nat_of_ascii c =? 13)%nat eqn:H13.
  { apply nat_of_ascii_eqb in H13; [subst c; reflexivity | lia]. }
  cbn [app unescape].
  destruct (Ascii.eqb_spec c "&"); [contradiction|].
  destruct (Ascii.eqb_spec c "<"); [contradiction|].
  unfold is_space. cbv zeta. rewrite H9, H10, H13, !orb_false_r.
  destruct (nat_of_ascii c =? 32)%nat eqn:H32; [|reflexivity].
  apply nat_of_ascii_eqb in H32; [subst c; reflexivity | lia].
Qed.

Lemma unescape_escape v :
  unescape (escape_attr v) None = Some (list_ascii_of_string v).
Proof.
  unfold escape_attr. induction (list_ascii_of_string v) as [|c l IH]; [reflexivity|].
  cbn [flat_map]. rewrite unescape_char, IH. reflexivity.
Qed.

Lemma parse_attr_value_write v r :
  parse_attr_value (dquote :: escape_attr v ++ dquote :: r) = Some (v, r).
Proof.
  unfold parse_attr_value.
  change (Ascii.eqb dquote dquote || Ascii.eqb dquote squote) with true. cbv iota.
  rewrite span_app; [| apply escape_no_quote | reflexivity].
  rewrite unescape_escape, string_of_list_ascii_of_string. reflexivity.
Qed.

(** ** Start tags *)

Lemma name_start_not_space c : is_name_start c = true -> is_space c = false.
Proof. destruct c as [[] [] [] [] [] [] [] []]; try reflexivity; discriminate. Qed.

Lemma name_start_not_slash c : is_name_start c = true -> Ascii.eqb c "/" = false.
Proof. destruct c as [[] [] [] [] [] [] [] []]; try reflexivity; discriminate. Qed.

Lemma name_ok_cons n :
  name_ok n = true ->
  exists c l, B n = c :: l /\ is_name_start c = true.
Proof.
  unfold name_ok, B. destruct (list_ascii_of_string n) as [|c l]; [discriminate|].
  intros H. apply andb_prop in H as [H _]. eauto.
Qed.

Lemma distinct_app_mid l1 k l2 :
  distinct (l1 ++ k :: l2) = true -> existsb (String.eqb k) l1 = false.
Proof.
  induction l1 as [|x l1 IH]; simpl; [reflexivity|].
  intros H. apply andb_prop in H as [Hx Hd].
  rewrite (IH Hd), orb_false_r.
  apply negb_true_iff in Hx. rewrite existsb_app in Hx.
  apply orb_false_elim in Hx as [_ Hx]. simpl in Hx.
  apply orb_false_elim in Hx as [Hx _]. now rewrite String.eqb_sym.
Qed.

Lemma parse_attrs_write a : forall acc fuel c r,
  forallb name_ok (map fst a) = true ->
  distinct (map fst (acc ++ a)) = true ->
  is_name_start c = false -> is_space c = false ->
  (length a < fuel)%nat ->
  parse_attrs fuel (flat_map write_attr a ++ c :: r) acc = Some (acc ++ a, c :: r).
Proof.
  induction a as [|[k v] a IH]; intros acc fuel c r Hn Hd Hc Hs Hf.
  - destruct fuel as [|fuel]; [simpl in Hf; lia|].
    cbn [flat_map app parse_attrs]. rewrite span_stop by assumption.
    rewrite Hc, List.app_nil_r. reflexivity.
  - destruct fuel as [|fuel]; [simpl in Hf; lia|].
    cbn [map fst forallb] in Hn. apply andb_prop in Hn as [Hk Hn].
    destruct (name_ok_cons k Hk) as (x & l & Ek & Hx).
    cbn [flat_map]. unfold write_attr at 1. cbn [fst snd].
    rewrite <- !List.app_assoc. cbn [B list_ascii_of_string app].
    cbn [parse_attrs span]. change (is_space " ") with true. cbv iota.
    pose proof (parse_name_app k "=" ((dquote :: escape_attr v) ++
      dquote :: flat_map write_attr a ++ c :: r) Hk eq_refl) as Hp.
    cbn [app] in Hp.
    fold (B k). rewrite Ek in *. cbn [app] in *.
    rewrite (span_stop is_space x) by now apply name_start_not_space.
    rewrite Hx. rewrite Hp.
    unfold skip_ws. rewrite span_stop by reflexivity. cbn [snd].
    change (Ascii.eqb "=" "=") with true. cbv iota.
    rewrite span_stop by reflexivity. cbn [snd].
    rewrite parse_attr_value_write.
    rewrite map_app in Hd. cbn [map fst] in Hd.
    rewrite (distinct_app_mid _ _ _ Hd).
    rewrite IH; auto.
    + now rewrite <- List.app_assoc.
    + rewrite <- List.app_assoc, map_app. exact Hd.
    + simpl in Hf. lia.
Qed.

(** ** Elements: parsing what [tostring] wrote gives the tree back *)

Lemma write_attrs_length a : (length a <= length (flat_map write_attr a))%nat.
Proof.
  induction a as [|kv a IH]; simpl; [lia|].
  rewrite length_app. simpl. lia.
Qed.

Lemma attrs_head a c r :
  is_name_char c = false ->
  exists c' r', flat_map write_attr a ++ c :: r = c' :: r' /\ is_name_char c' = false.
Proof.
  intros Hc. destruct a as [|[k v] a]; simpl; eauto.
Qed.

Lemma tostring_head t :
  wf_tree t = true ->
  exists x l, tostring t = "<"%char :: x :: l /\ is_name_start x = true.
Proof.
  destruct t as [tg a cs]. cbn [wf_tree]. intros H.
  apply andb_prop in H as [H _]. apply andb_prop in H as [H _].
  apply andb_prop in H as [H _].
  destruct (name_ok_cons tg H) as (x & l & E & Hx).
  cbn [tostring]. rewrite E. cbn [B list_ascii_of_string app]. eauto.
Qed.

Lemma skip_text_lt r : skip_text ("<"%char :: r) = "<"%char :: r.
Proof. reflexivity. Qed.

Lemma skip_ws_stop c r : is_space c = false -> skip_ws (c :: r) = c :: r.
Proof. intros H. unfold skip_ws. now rewrite span_stop. Qed.

Definition parses (t : Element) : Prop :=
  wf_tree t = true ->
  forall fuel r, (need t <= fuel)%nat ->
    parse_element fuel (tostring t ++ r) = Some (t, r).

Lemma parse_content_write cs :
  Forall parses cs -> forallb wf_tree cs = true ->
  forall fuel tl, (cneed cs <= fuel)%nat ->
    parse_content fuel (flat_map tostring cs ++ B "</" ++ tl) = Some (cs, B "</" ++ tl).
Proof.
  change (B "</") with ["<"%char; "/"%char]. cbn [app].
  induction 1 as [|k ks Hk _ IH]; intros Hwf fuel tl Hf.
  - destruct fuel as [|fuel]; [unfold cneed in Hf; simpl in Hf; lia|]. reflexivity.
  - cbn [forallb] in Hwf. apply andb_prop in Hwf as [Hwk Hwks].
    unfold cneed in Hf. simpl in Hf.
    destruct fuel as [|fuel]; [lia|].
    cbn [flat_map]. rewrite <- List.app_assoc.
    destruct (tostring_head k Hwk) as (x & l & E & Hx).
    cbn [parse_content].
    pose proof (Hk Hwk fuel (flat_map tostring ks ++ "<"%char :: "/"%char :: tl)) as Hpk.
    rewrite E in *. cbn [app] in *. rewrite skip_text_lt.
    rewrite (name_start_not_slash _ Hx).
    rewrite Hpk by lia.
    rewrite IH; [reflexivity | assumption | unfold cneed; lia].
Qed.

Lemma parse_start_tag_write tg a c tl :
  name_ok tg = true -> forallb name_ok (map fst a) = true ->
  distinct (map fst a) = true ->
  is_name_char c = false -> is_space c = false ->
  parse_start_tag (B "<" ++ B tg ++ flat_map write_attr a ++ c :: tl)
  = Some (tg, a, c :: tl).
Proof.
  intros Htg Ha Hd Hc Hs. cbn [B list_ascii_of_string app parse_start_tag].
  change (Ascii.eqb "<" "<") with true. cbv iota. fold (B tg).
  destruct (attrs_head a c tl Hc) as (c' & r' & E & Hc').
  rewrite E, parse_name_app by assumption. rewrite <- E.
  rewrite parse_attrs_write; auto.
  - destruct (is_name_start c) eqn:Hns; [|reflexivity].
    now rewrite (name_start_char _ Hns) in Hc.
  - rewrite length_app. pose proof (write_attrs_length a). lia.
Qed.

Lemma parse_end_tag_write tg r :
  name_ok tg = true ->
  parse_end_tag tg (B "</" ++ B tg ++ B ">" ++ r) = Some r.
Proof.
  intros Htg. cbn [B list_ascii_of_string app parse_end_tag]. fold (B tg).
  change (Ascii.eqb "<" "<" && Ascii.eqb "/" "/") with true. cbv iota.
  rewrite parse_name_app by (assumption || reflexivity).
  rewrite skip_ws_stop by reflexivity.
  change (Ascii.eqb ">" ">") with true. now rewrite String.eqb_refl.
Qed.

Lemma parse_element_write t : parses t.
Proof.
  induction t as [tg a cs IH] using Element_ind.
  intros Hwf fuel r Hf.
  cbn [wf_tree] in Hwf.
  apply andb_prop in Hwf as [Hwf Hcs]. apply andb_prop in Hwf as [Hwf Hd].
  apply andb_prop in Hwf as [Htg Ha].
  cbn [need] in Hf. destruct fuel as [|fuel]; [lia|].
  cbn [tostring parse_element]. rewrite <- !List.app_assoc.
  destruct cs as [|k ks].
  - change (B "/>" ++ r) with ("/"%char :: ">"%char :: r).
    rewrite parse_start_tag_write by (assumption || reflexivity). reflexivity.
  - rewrite <- !List.app_assoc.
    change (B ">" ++ ?x) with (">"%char :: x).
    rewrite parse_start_tag_write by (assumption || reflexivity).
    change (Ascii.eqb ">" ">") with true. cbv iota.
    rewrite parse_content_write; [| assumption | assumption | unfold cneed; lia].
    now rewrite parse_end_tag_write.
Qed.

Lemma need_lt_length t : (need t < length (tostring t))%nat.
Proof.
  induction t as [tg a cs IH] using Element_ind.
  cbn [need tostring]. rewrite !length_app.
  change (length (B "<")) with 1%nat.
  destruct cs as [|k ks]; [simpl; lia|].
  rewrite !length_app. change (length (B ">")) with 1%nat.
  change (length (B "</")) with 2%nat.
  assert (list_sum (map (fun c => Datatypes.S (need c)) (k :: ks))
          <= length (flat_map tostring (k :: ks)))%nat; [|lia].
  induction IH as [|x l Hx _ IHl]; simpl; [lia|].
  rewrite length_app. lia.
Qed.

(** Every well-formed tree is read back from its serialisation. *)
Theorem parse_tostring_wf t :
  wf_tree t = true -> parse (tostring t) = Some t.
Proof.
  intros Hwf. unfold parse.
  destruct (tostring_head t Hwf) as (x & l & E & _).
  rewrite E at 2. rewrite skip_ws_stop by reflexivity. rewrite <- E.
  rewrite <- (List.app_nil_r (tostring t)) at 2.
  rewrite (parse_element_write t Hwf); [reflexivity|].
  pose proof (need_lt_length t). lia.
Qed.

(** ** Decoding the documents the program writes *)

Lemma wf_objects names :
  forallb wf_tree (List.map (fun n => Elem "object" [("name", n)] []) names) = true.
Proof. induction names as [|n l IH]; [reflexivity|]. cbn [List.map forallb]. now rewrite IH. Qed.

Lemma wf_encode r : wf_tree (LXML.encode r) = true.
Proof.
  unfold LXML.encode. cbn [wf_tree forallb]. rewrite wf_objects. reflexivity.
Qed.

Lemma iter_objects names :
  List.filter (fun x => String.eqb (tag x) "object")
    (flat_map iter (List.map (fun n => Elem "object" [("name", n)] []) names))
  = List.map (fun n => Elem "object" [("name", n)] []) names.
Proof.
  induction names as [|n l IH]; [reflexivity|].
  cbn [List.map flat_map iter app List.filter tag]. cbn. now rewrite IH.
Qed.

Lemma names_of_objects names :
  List.map (fun obj => get obj "name")
    (List.map (fun n => Elem "object" [("name", n)] []) names)
  = List.map Some names.
Proof. induction names as [|n l IH]; [reflexivity|]. cbn. now rewrite IH. Qed.

Lemma find_id_encode r :
  find_var "id" (LXML.encode r) = Some (Elem "var" [("name", "id"); ("value", rec_id r)] []).
Proof. reflexivity. Qed.

Lemma find_level_encode r :
  find_var "level" (LXML.encode r)
  = Some (Elem "var" [("name", "level"); ("value", str (rec_level r))] []).
Proof. reflexivity. Qed.

Lemma find_objects_encode r :
  find_child "objects" (LXML.encode r)
  = Some (Elem "objects" []
            (List.map (fun n => Elem "object" [("name", n)] []) (rec_objects r))).
Proof. reflexivity. Qed.

(** Decoding the document of a record gives the record back. *)
Lemma read_document r : LXML.read (LXML.document r) = inr (decoded r).
Proof.
  unfold LXML.read, LXML.document.
  rewrite parse_tostring_wf by apply wf_encode.
  rewrite find_id_encode, find_level_encode, find_objects_encode.
  unfold iter_tag, decoded. cbn [iter List.filter tag].
  change (String.eqb "objects" "object") with false. cbv iota.
  rewrite iter_objects, names_of_objects. reflexivity.
Qed.

Lemma generate_documents self e :
  documents_of self e = List.map LXML.document (records_of self e).
Proof.
  unfold documents_of, records_of, LXML.generate.
  destruct (LXML.draw_all self _ e) as [[rs x] e']. reflexivity.
Qed.

(** C1. Round trip: the documents [LXML.generate] yields are the
    documents of the records it drew, and [LXML.read] applied to the
    document of any record [r] gives back the id of [r], the level of [r]
    as its decimal string, and the object names of [r] in order. *)
Theorem C1_read_generate_roundtrip (self : LXML.t) (e : secrets.entropy) :
  documents_of self e = List.map LXML.document (records_of self e) /\
  forall r : record,
    LXML.read (LXML.document r)
    = inr {| d_id := Some (rec_id r);
             d_level := Some (str (rec_level r));
             d_object_names := List.map Some (rec_objects r) |}.
Proof.
  split; [apply generate_documents | intros r; apply read_document].
Qed.

(** ** Documents that lack a part *)










Lemma read_doc_without_value :
  LXML.read doc_without_value
  = inr {| d_id := None; d_level := Some "7"; d_object_names := [Some "a"] |}.
Proof. vm_compute. reflexivity. Qed.

Lemma read_tree_without_value :
  LXML.read (tostring tree_without_value)
  = inr {| d_id := None; d_level := Some "7"; d_object_names := [Some "a"] |}.
Proof. vm_compute. reflexivity. Qed.



(** The document with the container removed is refused. *)
Lemma read_tree_without_objects :
  LXML.read (tostring tree_without_objects) = inl AttributeError.
Proof. vm_compute. reflexivity. Qed.

(** ** The monad *)

Lemma bind_inr {S A B} (m : M S A) (k : A -> M S B) s b s' :
  bind m k s = (inr b, s') ->
  exists a s1, m s = (inr a, s1) /\ k a s1 = (inr b, s').
Proof.
  unfold bind. destruct (m s) as [[x|a] s1]; [discriminate|]. eauto.
Qed.

Lemma ret_inr {S A} (a b : A) (s s' : S) : ret a s = (inr b, s') -> a = b /\ s = s'.
Proof. unfold ret. intros H. now inversion H. Qed.

Lemma replicateM_inr {S A} (P : A -> Prop) (m : M S A) :
  (forall s x s', m s = (inr x, s') -> P x) ->
  forall n s l s', replicateM n m s = (inr l, s') -> length l = n /\ Forall P l.
Proof.
  intros Hm. induction n as [|n IH]; intros s l s' H; cbn [replicateM] in H.
  - apply ret_inr in H as [<- _]. split; [reflexivity | constructor].
  - apply bind_inr in H as (x & s1 & Hx & H).
    apply bind_inr in H as (xs & s2 & Hxs & H).
    apply ret_inr in H as [<- _].
    destruct (IH _ _ _ Hxs) as [Hlen Hall].
    split; [simpl; now rewrite Hlen | constructor; eauto].
Qed.

Lemma replicateM_total {S A} (m : M S A) :
  (forall s, exists x s', m s = (inr x, s')) ->
  forall n s, exists l s', replicateM n m s = (inr l, s').
Proof.
  intros Hm. induction n as [|n IH]; intros s; cbn [replicateM].
  - unfold ret. eauto.
  - destruct (Hm s) as (x & s1 & Hx). destruct (IH s1) as (l & s2 & Hl).
    exists (x :: l), s2. unfold bind, ret. now rewrite Hx, Hl.
Qed.

(** ** Tokens *)

Import secrets.

Lemma urandom_inr n e tok e' :
  urandom n e = (inr tok, e') -> 0 <= n /\ length tok = Z.to_nat n.
Proof.
  unfold urandom. destruct (Z.ltb_spec n 0) as [Hn|Hn]; [discriminate|].
  intros H. apply (replicateM_inr (fun _ => True)) in H as [H _]; auto.
Qed.

Lemma urandom_total n e :
  0 <= n -> exists tok e', urandom n e = (inr tok, e').
Proof.
  intros Hn. unfold urandom. destruct (Z.ltb_spec n 0) as [H|_]; [lia|].
  apply replicateM_total. intros s. unfold random_byte, bind, next_draw, ret. eauto.
Qed.

Lemma randbelow_inr n e x e' :
  randbelow n e = (inr x, e') -> 0 <= x < n.
Proof.
  unfold randbelow. destruct (Z.leb_spec n 0) as [Hn|Hn]; [discriminate|].
  unfold bind, next_draw, ret. intros H. inversion H. apply Z.mod_pos_bound. lia.
Qed.

Lemma randbelow_total n e :
  0 < n -> exists x e', randbelow n e = (inr x, e').
Proof.
  intros Hn. unfold randbelow. destruct (Z.leb_spec n 0) as [H|_]; [lia|].
  unfold bind, next_draw, ret. eauto.
Qed.

(** Every value of the range is drawn from some tape. *)
Lemma randbelow_onto n x :
  0 <= x < n ->
  exists e e', randbelow n e = (inr x, e').
Proof.
  intros Hx. exists {| tape := fun _ => x; pos := 0 |}.
  unfold randbelow. destruct (Z.leb_spec n 0) as [H|_]; [lia|].
  unfold bind, next_draw, ret. cbn. rewrite Z.mod_small by lia. eauto.
Qed.

Lemma token_hex_inr k e s e' :
  token_hex k e = (inr s, e') -> is_token_hex k s.
Proof.
  unfold token_hex, token_bytes. intros H.
  apply bind_inr in H as (tok & e1 & Htok & H). apply ret_inr in H as [<- _].
  apply urandom_inr in Htok as [Hk Hlen]. now exists tok.
Qed.

Lemma token_urlsafe_inr k e s e' :
  token_urlsafe k e = (inr s, e') -> is_token_text k s.
Proof.
  unfold token_urlsafe, token_bytes. intros H.
  apply bind_inr in H as (tok & e1 & Htok & H). apply ret_inr in H as [<- _].
  apply urandom_inr in Htok as [Hk Hlen]. now exists tok.
Qed.

Lemma hex_digit_class d : is_hex_char (hex_digit d) = true.
Proof.
  unfold hex_digit. generalize (Z.to_nat d) as n. intros n.
  do 16 (destruct n as [|n]; [reflexivity|]). now destruct n.
Qed.

Lemma b64_char_class i : is_urlsafe_char (b64_char i) = true.
Proof.
  unfold b64_char. generalize (Z.to_nat i) as n. intros n.
  do 64 (destruct n as [|n]; [reflexivity|]). now destruct n.
Qed.

Lemma b64_char_not_pad i : Ascii.eqb (b64_char i) "=" = false.
Proof.
  pose proof (b64_char_class i) as H.
  destruct (Ascii.eqb_spec (b64_char i) "=") as [E|]; [|reflexivity].
  rewrite E in H. discriminate.
Qed.

Lemma hex_length tok : String.length (hex tok) = (2 * length tok)%nat.
Proof. induction tok as [|b r IH]; simpl; [reflexivity|]. rewrite IH. lia. Qed.

Lemma hex_chars tok : all_chars is_hex_char (hex tok) = true.
Proof.
  unfold all_chars. induction tok as [|b r IH]; [reflexivity|].
  cbn [hex list_ascii_of_string forallb]. now rewrite !hex_digit_class, IH.
Qed.

Lemma list_ind3 {A} (P : list A -> Prop) :
  P [] -> (forall a, P [a]) -> (forall a b, P [a; b]) ->
  (forall a b c r, P r -> P (a :: b :: c :: r)) ->
  forall l, P l.
Proof.
  intros H0 H1 H2 H3. fix IH 1.
  intros [|a [|b [|c r]]]; [apply H0 | apply H1 | apply H2 | apply H3, IH].
Qed.

Lemma rstrip_keep c x r : Ascii.eqb x c = false -> rstrip c (x :: r) = x :: rstrip c r.
Proof. intros H. cbn [rstrip]. rewrite H. now destruct (rstrip c r). Qed.

Lemma b64_text_length tok :
  length (rstrip "=" (urlsafe_b64encode tok)) = ((4 * length tok + 2) / 3)%nat.
Proof.
  induction tok as [| a | a b | a b c r IH] using list_ind3.
  - reflexivity.
  - cbn [urlsafe_b64encode]. rewrite !rstrip_keep by apply b64_char_not_pad. reflexivity.
  - cbn [urlsafe_b64encode]. rewrite !rstrip_keep by apply b64_char_not_pad. reflexivity.
  - cbn [urlsafe_b64encode]. rewrite !rstrip_keep by apply b64_char_not_pad.
    cbn [length]. rewrite IH.
    replace (4 * Datatypes.S (Datatypes.S (Datatypes.S (length r))) + 2)%nat
      with ((4 * length r + 2) + 4 * 3)%nat by lia.
    rewrite Nat.div_add by lia. lia.
Qed.

Lemma b64_text_chars tok :
  forallb is_urlsafe_char (rstrip "=" (urlsafe_b64encode tok)) = true.
Proof.
  induction tok as [| a | a b | a b c r IH] using list_ind3;
    cbn [urlsafe_b64encode]; rewrite ?rstrip_keep by apply b64_char_not_pad;
    cbn [forallb]; rewrite ?b64_char_class, ?IH; reflexivity.
Qed.

Lemma length_string_of_list l : String.length (string_of_list_ascii l) = length l.
Proof. induction l as [|c l IH]; simpl; [reflexivity | now rewrite IH]. Qed.

Lemma urlsafe_text_length tok :
  String.length (urlsafe_text tok) = ((4 * length tok + 2) / 3)%nat.
Proof. unfold urlsafe_text. now rewrite length_string_of_list, b64_text_length. Qed.

Lemma urlsafe_text_chars tok : all_chars is_urlsafe_char (urlsafe_text tok) = true.
Proof.
  unfold all_chars, urlsafe_text.
  rewrite list_ascii_of_string_of_list_ascii. apply b64_text_chars.
Qed.

(** ** The records [LXML.generate] draws *)

Lemma draw_inr self e r e' :
  LXML.draw self e = (inr r, e') ->
  exists n l,
    0 <= n < LXML.objects_max self /\ 0 <= l < LXML.level_max self /\
    rec_level r = l + 1 /\
    length (rec_objects r) = Z.to_nat (n + 1) /\
    Forall (is_token_text (LXML.name_length self)) (rec_objects r) /\
    is_token_hex (LXML.token_length self) (rec_id r).
Proof.
  unfold LXML.draw. intros H.
  apply bind_inr in H as (n & e1 & Hn & H).
  apply bind_inr in H as (names & e2 & Hnames & H).
  apply bind_inr in H as (i & e3 & Hi & H).
  apply bind_inr in H as (l & e4 & Hl & H).
  apply ret_inr in H as [<- _]. cbn [rec_id rec_level rec_objects].
  apply randbelow_inr in Hn. apply randbelow_inr in Hl.
  apply token_hex_inr in Hi.
  apply (replicateM_inr (is_token_text (LXML.name_length self))) in Hnames
    as [Hlen Hall]; [| intros; eapply token_urlsafe_inr; eauto].
  exists n, l. auto 10.
Qed.

Lemma token_urlsafe_total k e :
  0 <= k -> exists s e', token_urlsafe k e = (inr s, e').
Proof.
  intros Hk. unfold token_urlsafe, token_bytes, bind.
  destruct (urandom_total k e Hk) as (tok & e1 & ->). unfold ret. eauto.
Qed.

Lemma token_hex_total k e :
  0 <= k -> exists s e', token_hex k e = (inr s, e').
Proof.
  intros Hk. unfold token_hex, token_bytes, bind.
  destruct (urandom_total k e Hk) as (tok & e1 & ->). unfold ret. eauto.
Qed.

Lemma draw_total self e :
  valid self -> exists r e', LXML.draw self e = (inr r, e').
Proof.
  intros (Ho & Hl & Hn & Ht). unfold LXML.draw, bind.
  destruct (randbelow_total _ e Ho) as (n & e1 & ->).
  destruct (replicateM_total (token_urlsafe (LXML.name_length self))
              (fun s => token_urlsafe_total _ s Hn) (Z.to_nat (n + 1)) e1)
    as (names & e2 & ->).
  destruct (token_hex_total _ e2 Ht) as (i & e3 & ->).
  destruct (randbelow_total _ e3 Hl) as (l & e4 & ->).
  unfold ret. eauto.
Qed.

Lemma draw_all_Forall self (P : record -> Prop) :
  (forall e r e', LXML.draw self e = (inr r, e') -> P r) ->
  forall n e, Forall P (fst (fst (LXML.draw_all self n e))).
Proof.
  intros HP. induction n as [|n IH]; intros e; cbn [LXML.draw_all].
  - constructor.
  - destruct (LXML.draw self e) as [[x|r] e1] eqn:Hd; [constructor|].
    specialize (IH e1). destruct (LXML.draw_all self n e1) as [[rs x] e2].
    constructor; [eapply HP; eauto | exact IH].
Qed.

Lemma draw_all_total self :
  valid self ->
  forall n e, exists rs e', LXML.draw_all self n e = ((rs, None), e') /\ length rs = n.
Proof.
  intros Hv. induction n as [|n IH]; intros e; cbn [LXML.draw_all].
  - eauto.
  - destruct (draw_total self e Hv) as (r & e1 & ->).
    destruct (IH e1) as (rs & e2 & -> & Hlen).
    exists (r :: rs), e2. split; [reflexivity | simpl; now rewrite Hlen].
Qed.

(** With a valid configuration the generator yields [xml_count]
    documents and does not raise. *)
Lemma generate_total self e :
  valid self ->
  exists rs e', LXML.generate self e = ((List.map LXML.document rs, None), e') /\
                length rs = Z.to_nat (LXML.xml_count self) /\ records_of self e = rs.
Proof.
  intros Hv. unfold LXML.generate, records_of.
  destruct (draw_all_total self Hv (Z.to_nat (LXML.xml_count self)) e)
    as (rs & e' & -> & Hlen).
  exists rs, e'. auto.
Qed.

Lemma draw_in_bounds self e r e' :
  LXML.draw self e = (inr r, e') -> in_bounds self r.
Proof.
  intros H. apply draw_inr in H as (n & l & Hn & Hl & Hlev & Hlen & _).
  unfold in_bounds. rewrite Hlev, Hlen. lia.
Qed.

Lemma token_hex_shape k s :
  is_token_hex k s ->
  Z.of_nat (String.length s) = 2 * k /\ all_chars is_hex_char s = true.
Proof.
  intros (tok & Hk & Hlen & ->). rewrite hex_length, hex_chars, Hlen. split; [lia | reflexivity].
Qed.

Lemma token_text_shape k s :
  is_token_text k s ->
  Z.of_nat (String.length s) = (4 * k + 2) / 3 /\ all_chars is_urlsafe_char s = true.
Proof.
  intros (tok & Hk & Hlen & ->). rewrite urlsafe_text_length, urlsafe_text_chars, Hlen.
  split; [|reflexivity].
  rewrite Nat2Z.inj_div, Nat2Z.inj_add, Nat2Z.inj_mul, Z2Nat.id by lia. reflexivity.
Qed.

Lemma draw_lengths self e r e' :
  LXML.draw self e = (inr r, e') -> lengths_as_built self r.
Proof.
  intros H. apply draw_inr in H as (n & l & _ & _ & _ & _ & Hnames & Hid).
  destruct (token_hex_shape _ _ Hid) as [H1 H2].
  unfold lengths_as_built. repeat split; try assumption.
  eapply List.Forall_impl; [| exact Hnames]. intros nm. apply token_text_shape.
Qed.

Lemma valid_lxml_helper : valid lxml_helper.
Proof. unfold valid. repeat split; easy. Qed.

Lemma valid_small_helper : valid small_helper.
Proof. unfold valid. repeat split; easy. Qed.

Lemma records_in_bounds self e : Forall (in_bounds self) (records_of self e).
Proof. apply draw_all_Forall. intros e0 r e' H. exact (draw_in_bounds _ _ _ _ H). Qed.

Lemma records_lengths self e : Forall (lengths_as_built self) (records_of self e).
Proof. apply draw_all_Forall. intros e0 r e' H. exact (draw_lengths _ _ _ _ H). Qed.

Lemma records_count self e :
  valid self -> length (records_of self e) = Z.to_nat (LXML.xml_count self).
Proof.
  intros Hv. destruct (generate_total self e Hv) as (rs & _ & _ & Hlen & E).
  now rewrite E.
Qed.

(** C7. Every record [LXML.generate] draws has its level in
    [1 .. level_max] and between 1 and [objects_max] objects. *)
Theorem C7_generated_records_in_bounds (self : LXML.t) (e : secrets.entropy) :
  Forall (fun r =>
            1 <= rec_level r <= LXML.level_max self /\
            1 <= Z.of_nat (length (rec_objects r)) <= LXML.objects_max self)
         (records_of self e).
Proof. apply draw_all_Forall. intros e0 r e' H. exact (draw_in_bounds _ _ _ _ H). Qed.

(** C8, as stated, fails on the program's own configuration: the names
    are drawn from 32 bytes and are 43 characters long, not 32. *)
Lemma C8_counterexample_name_length :
  ~ Forall (lengths_as_stated lxml_helper) (records_of lxml_helper tape0).
Proof.
  pose proof (records_lengths lxml_helper tape0) as Hb.
  pose proof (records_in_bounds lxml_helper tape0) as Hc.
  assert (Hlen : length (records_of lxml_helper tape0) = 100%nat).
  { apply (records_count lxml_helper tape0 valid_lxml_helper). }
  generalize dependent (records_of lxml_helper tape0). intros rs Hb Hc Hlen H.
  destruct rs as [|r rs]; [discriminate|].
  inversion H as [|? ? (_ & _ & Hs) _]. inversion Hb as [|? ? (_ & _ & Hbuilt) _].
  inversion Hc as [|? ? (_ & Hobj) _]. subst.
  destruct (rec_objects r) as [|nm nms]; [simpl in Hobj; lia|].
  inversion Hs as [|? ? [Hs1 _] _]. inversion Hbuilt as [|? ? [Hb1 _] _]. subst.
  rewrite Hs1 in Hb1. vm_compute in Hb1. discriminate.
Qed.

(** C8, amended. Every generated id is a lower-case hexadecimal string
    of exactly twice [token_length] characters; every object name is a
    URL-safe string, the unpadded base64 text of [name_length] random
    bytes, hence of [(4 * name_length + 2) / 3] characters. *)
Theorem C8_generated_ids_and_names (self : LXML.t) (e : secrets.entropy) :
  Forall (fun r =>
            Z.of_nat (String.length (rec_id r)) = 2 * LXML.token_length self /\
            all_chars is_hex_char (rec_id r) = true /\
            Forall (fun nm =>
                      Z.of_nat (String.length nm) = (4 * LXML.name_length self + 2) / 3 /\
                      all_chars is_urlsafe_char nm = true)
                   (rec_objects r))
         (records_of self e).
Proof. apply draw_all_Forall. intros e0 r e' H. exact (draw_lengths _ _ _ _ H). Qed.

(** ** Decimal strings and names *)

Lemma str_inj n m : str n = str m -> n = m.
Proof.
  unfold str. intros H. apply DecimalZ.to_int_inj.
  assert (Hnn : forall z, Z.to_int z <> Decimal.Pos Decimal.Nil /\
                          Z.to_int z <> Decimal.Neg Decimal.Nil).
  { intros [|p|p]; cbn; split; try discriminate; intros [= E];
      now apply DecimalPos.Unsigned.to_uint_nonnil in E. }
  assert (E : Some (Z.to_int n) = Some (Z.to_int m)).
  { rewrite <- (NilZero.isi (Z.to_int n)), <- (NilZero.isi (Z.to_int m));
      try apply Hnn. now rewrite H. }
  now injection E.
Qed.

Lemma string_app_cons c s t : String c s +:+ t = String c (s +:+ t).
Proof. reflexivity. Qed.

Lemma list_of_string_app s t :
  list_ascii_of_string (s +:+ t) = list_ascii_of_string s ++ list_ascii_of_string t.
Proof.
  induction s as [|c s IH]; [reflexivity|].
  rewrite string_app_cons. cbn [list_ascii_of_string app]. now rewrite IH.
Qed.

Lemma string_app_inv_tail s1 s2 t : s1 +:+ t = s2 +:+ t -> s1 = s2.
Proof.
  intros H. apply (f_equal list_ascii_of_string) in H.
  rewrite !list_of_string_app in H. apply List.app_inv_tail in H.
  rewrite <- (string_of_list_ascii_of_string s1), <- (string_of_list_ascii_of_string s2).
  now rewrite H.
Qed.

Lemma member_name_inj i j : member_name i = member_name j -> i = j.
Proof. intros H. now apply str_inj, (string_app_inv_tail _ _ ".xml"). Qed.

Lemma zip_name_inj i j : zip_name i = zip_name j -> i = j.
Proof. intros H. now apply str_inj, (string_app_inv_tail _ _ ".zip"). Qed.

(** ** Archives *)

Lemma enumerate_from_fst {A} (l : list A) i :
  List.map fst (enumerate_from i l) = List.map (fun k => i + Z.of_nat k) (seq 0 (length l)).
Proof.
  revert i. induction l as [|x l IH]; intros i; [reflexivity|].
  cbn [enumerate_from List.map fst length seq]. rewrite IH. f_equal; [f_equal; lia|].
  rewrite <- seq_shift, List.map_map. apply List.map_ext. intros k. lia.
Qed.

Lemma archive_names docs i :
  zipfile.namelist (archive_from i docs)
  = List.map (fun k => member_name (i + Z.of_nat k)) (seq 0 (length docs)).
Proof.
  unfold zipfile.namelist, archive_from. rewrite List.map_map.
  rewrite <- (List.map_map (fun k => i + Z.of_nat k) member_name).
  rewrite <- enumerate_from_fst, List.map_map.
  apply List.map_ext. now intros [j d].
Qed.

Lemma archive_length docs i : length (archive_from i docs) = length docs.
Proof.
  unfold archive_from. rewrite length_map.
  revert i. induction docs as [|d l IH]; intros i; [reflexivity|].
  cbn [enumerate_from length]. now rewrite IH.
Qed.

Lemma archive_names_range docs :
  zipfile.namelist (archive_of docs)
  = List.map member_name (range (Z.of_nat (length docs))).
Proof.
  unfold archive_of. rewrite archive_names. unfold range.
  rewrite Nat2Z.id, List.map_map. reflexivity.
Qed.

Lemma archive_names_NoDup docs i : NoDup (zipfile.namelist (archive_from i docs)).
Proof.
  rewrite archive_names. apply NoDup_fmap_2; [|apply NoDup_seq].
  intros a b H. apply member_name_inj in H. lia.
Qed.

Lemma writestr_fold (l : list (Z * bytes)) acc :
  fold_left (fun zf '(i, xml_data) => zipfile.writestr zf (str i +:+ ".xml") xml_data) l acc
  = acc ++ List.map (fun '(i, d) => (member_name i, d)) l.
Proof.
  revert acc. induction l as [|[i d] l IH]; intros acc; cbn [fold_left List.map].
  - now rewrite List.app_nil_r.
  - rewrite IH. unfold zipfile.writestr. now rewrite <- List.app_assoc.
Qed.

Lemma open_absent zf n : ~ In n (zipfile.namelist zf) -> zipfile.open zf n = None.
Proof.
  induction zf as [|[n0 d0] zf IH]; [reflexivity|]. cbn. intros H.
  rewrite IH by tauto.
  destruct (String.eqb_spec n0 n) as [->|]; [tauto | reflexivity].
Qed.

Lemma open_member zf n d :
  NoDup (zipfile.namelist zf) -> In (n, d) zf -> zipfile.open zf n = Some d.
Proof.
  induction zf as [|[n0 d0] zf IH]; [contradiction|].
  cbn [zipfile.namelist List.map fst]. intros Hnd Hin.
  apply NoDup_cons in Hnd as [Hn0 Hnd]. cbn [zipfile.open].
  destruct Hin as [[= -> ->]|Hin].
  - rewrite open_absent by now rewrite <- list_elem_of_In.
    now rewrite String.eqb_refl.
  - now rewrite (IH Hnd Hin).
Qed.

Lemma read_members_documents zf names rs :
  NoDup (zipfile.namelist zf) ->
  Forall2 (fun n r => In (n, LXML.document r) zf) names rs ->
  Zip.read_members zf names = inr (List.map decoded rs).
Proof.
  intros Hnd. induction 1 as [|n r names rs Hin _ IH]; [reflexivity|].
  cbn [Zip.read_members List.map].
  now rewrite (open_member _ _ _ Hnd Hin), read_document, IH.
Qed.

Lemma archive_members rs : forall i zf,
  (forall p, In p (archive_from i (List.map LXML.document rs)) -> In p zf) ->
  Forall2 (fun n r => In (n, LXML.document r) zf)
          (zipfile.namelist (archive_from i (List.map LXML.document rs))) rs.
Proof.
  induction rs as [|r rs IH]; intros i zf Hincl; [constructor|].
  cbn. constructor.
  - apply Hincl. now left.
  - apply IH. intros p Hp. apply Hincl. now right.
Qed.

Lemma read_archive rs :
  Zip.read_members (archive_of (List.map LXML.document rs))
    (zipfile.namelist (archive_of (List.map LXML.document rs)))
  = inr (List.map decoded rs).
Proof.
  apply read_members_documents; [apply archive_names_NoDup|].
  apply archive_members. auto.
Qed.

(** What [Zip.create] does when the generator yields the documents of
    [rs] and does not raise. *)
Lemma create_built self prefix w rs e' :
  LXML.draw_all (Zip.xml self) (Z.to_nat (LXML.xml_count (Zip.xml self))) (rng w)
  = ((rs, None), e') ->
  Zip.create self prefix w
  = (inr (zip_name prefix),
     {| rng := e';
        fs := <[zip_name prefix := Archive (archive_of (List.map LXML.document rs))]> (fs w) |}).
Proof.
  intros H. unfold Zip.create, LXML.generate. rewrite H.
  now rewrite writestr_fold.
Qed.

(** C3. An archive built by [Zip.create] over a valid configuration
    with [xml_count = k] has exactly [k] members, named [0.xml],
    [1.xml], ... [(k-1).xml] in this order. *)
Theorem C3_archive_members (self : Zip.t) (prefix : Z) (w : world) :
  valid (Zip.xml self) ->
  exists w' zf,
    Zip.create self prefix w = (inr (str prefix +:+ ".zip"), w') /\
    fs w' !! (str prefix +:+ ".zip") = Some (Archive zf) /\
    length zf = Z.to_nat (LXML.xml_count (Zip.xml self)) /\
    zipfile.namelist zf
    = List.map (fun i => str i +:+ ".xml") (range (LXML.xml_count (Zip.xml self))).
Proof.
  intros Hv.
  destruct (draw_all_total _ Hv (Z.to_nat (LXML.xml_count (Zip.xml self))) (rng w))
    as (rs & e' & Hd & Hlen).
  eexists _, _. split; [exact (create_built self prefix w rs e' Hd)|].
  cbn [fs]. split; [apply lookup_insert_eq|].
  split.
  - unfold archive_of. now rewrite archive_length, length_map.
  - rewrite archive_names_range, length_map, Hlen.
    unfold range. now rewrite Nat2Z.id.
Qed.

Lemma C3_witness_three_members :
  valid small_helper /\
  exists w' zf,
    Zip.create (Zip.init small_helper) 0 {| rng := tape0; fs := ∅ |}
    = (inr "0.zip", w') /\
    fs w' !! "0.zip" = Some (Archive zf) /\
    length zf = 3%nat /\
    zipfile.namelist zf = ["0.xml"; "1.xml"; "2.xml"].
Proof.
  pose proof valid_small_helper as Hv.
  split; [exact Hv|].
  exact (C3_archive_members (Zip.init small_helper) 0 {| rng := tape0; fs := ∅ |} Hv).
Defined.

(** [Zip.read] of an archive just built gives the decoded records in
    the order they were written. *)
Lemma read_created self prefix w rs e' :
  LXML.draw_all (Zip.xml self) (Z.to_nat (LXML.xml_count (Zip.xml self))) (rng w)
  = ((rs, None), e') ->
  exists w',
    Zip.create self prefix w = (inr (zip_name prefix), w') /\
    Zip.read self (zip_name prefix) w' = (inr (List.map decoded rs), w').
Proof.
  intros H. eexists. split; [exact (create_built self prefix w rs e' H)|].
  unfold Zip.read. cbn [fs]. rewrite lookup_insert_eq. now rewrite read_archive.
Qed.

Lemma archive_from_records rs i :
  archive_from i (List.map LXML.document rs)
  = List.map (fun '(j, r) => (member_name j, LXML.document r)) (enumerate_from i rs).
Proof.
  unfold archive_from. revert i. induction rs as [|r rs IH]; intros i; [reflexivity|].
  cbn [List.map enumerate_from]. now rewrite IH.
Qed.

Lemma enumerate_from_snd {A} (l : list A) i : List.map snd (enumerate_from i l) = l.
Proof.
  revert i. induction l as [|x l IH]; intros i; [reflexivity|].
  cbn [enumerate_from List.map snd]. now rewrite IH.
Qed.

Lemma members_of_pairs (ps : list (Z * record)) zf :
  (forall p, In p ps -> In (member_name (fst p), LXML.document (snd p)) zf) ->
  Forall2 (fun n r => In (n, LXML.document r) zf)
          (zipfile.namelist
             (List.map (fun '(j, r) => (member_name j, LXML.document r)) ps))
          (List.map snd ps).
Proof.
  induction ps as [|[j r] ps IH]; intros Hin; [constructor|].
  cbn. constructor.
  - apply (Hin (j, r)). now left.
  - apply IH. intros p Hp. apply Hin. now right.
Qed.

Lemma decoded_members (ps : list (Z * record)) :
  Forall2 (fun member d => LXML.read (snd member) = inr d)
          (List.map (fun '(j, r) => (member_name j, LXML.document r)) ps)
          (List.map decoded (List.map snd ps)).
Proof.
  induction ps as [|[j r] ps IH]; [constructor|].
  cbn. constructor; [apply read_document | exact IH].
Qed.

(** Whatever the directory order of the members of a built archive, the
    members are decoded one by one and the result holds the decoded
    records, each once. *)
Lemma read_members_reordered rs zf :
  Permutation zf (archive_of (List.map LXML.document rs)) ->
  exists ds,
    Zip.read_members zf (zipfile.namelist zf) = inr ds /\
    Forall2 (fun member d => LXML.read (snd member) = inr d) zf ds /\
    length ds = length rs /\
    Permutation ds (List.map decoded rs).
Proof.
  intros Hp.
  assert (Hnd : NoDup (zipfile.namelist zf)).
  { unfold zipfile.namelist. rewrite (Permutation_map fst Hp).
    apply archive_names_NoDup. }
  unfold archive_of in Hp. rewrite archive_from_records in Hp.
  apply Permutation_map_inv in Hp as (ps & -> & Hps).
  exists (List.map decoded (List.map snd ps)). split; [|split; [|split]].
  - apply read_members_documents; [exact Hnd|].
    apply members_of_pairs. intros [j r] Hin.
    apply in_map_iff. now exists (j, r).
  - apply decoded_members.
  - rewrite !length_map, <- (Permutation_length Hps).
    transitivity (length (List.map snd (enumerate_from 0 rs)));
      [now rewrite length_map | now rewrite enumerate_from_snd].
  - apply Permutation_map.
    eapply Permutation_trans; [apply Permutation_map, Permutation_sym, Hps|].
    rewrite enumerate_from_snd. apply Permutation_refl.
Qed.

(** C4. Reading back an archive built from the records [rs] gives as
    many dictionaries as there are records, each the decoding of one
    member, and together they are the decoded records up to order: this
    holds for the archive as [Zip.create] left it and for every other
    order in which its directory may list the same members. *)
Theorem C4_read_back_permutation
    (self : Zip.t) (prefix : Z) (w : world) (rs : list record) (e' : secrets.entropy) :
  LXML.draw_all (Zip.xml self) (Z.to_nat (LXML.xml_count (Zip.xml self))) (rng w)
  = ((rs, None), e') ->
  exists w' zf,
    Zip.create self prefix w = (inr (str prefix +:+ ".zip"), w') /\
    fs w' !! (str prefix +:+ ".zip") = Some (Archive zf) /\
    reordered (str prefix +:+ ".zip") zf w' = w' /\
    forall zf', Permutation zf' zf ->
      exists ds,
        Zip.read self (str prefix +:+ ".zip") (reordered (str prefix +:+ ".zip") zf' w')
        = (inr ds, reordered (str prefix +:+ ".zip") zf' w') /\
        Forall2 (fun member d => LXML.read (snd member) = inr d) zf' ds /\
        length ds = length rs /\
        Permutation ds (List.map decoded rs).
Proof.
  intros H. eexists _, _. split; [exact (create_built self prefix w rs e' H)|].
  cbn [fs]. split; [apply lookup_insert_eq|].
  split; [unfold reordered; cbn [rng fs]; now rewrite insert_insert_eq|].
  intros zf' Hp.
  destruct (read_members_reordered rs zf' Hp) as (ds & Hr & Hm & Hlen & Hperm).
  exists ds. split; [|auto].
  unfold Zip.read, reordered. cbn [fs]. rewrite lookup_insert_eq. now rewrite Hr.
Qed.

Lemma C4_witness_small_archive :
  LXML.draw_all small_helper 3 tape0
  = ((records_of small_helper tape0, None), snd (LXML.draw_all small_helper 3 tape0)) /\
  exists w' zf,
    Zip.create (Zip.init small_helper) 0 small_world = (inr "0.zip", w') /\
    fs w' !! "0.zip" = Some (Archive zf) /\
    reordered "0.zip" zf w' = w' /\
    forall zf', Permutation zf' zf ->
      exists ds,
        Zip.read (Zip.init small_helper) "0.zip" (reordered "0.zip" zf' w')
        = (inr ds, reordered "0.zip" zf' w') /\
        Forall2 (fun member d => LXML.read (snd member) = inr d) zf' ds /\
        length ds = 3%nat /\
        Permutation ds (List.map decoded (records_of small_helper tape0)).
Proof.
  assert (H : LXML.draw_all small_helper 3 tape0
              = ((records_of small_helper tape0, None),
                 snd (LXML.draw_all small_helper 3 tape0)))
    by (vm_compute; reflexivity).
  split; [exact H|].
  exact (C4_read_back_permutation (Zip.init small_helper) 0 small_world
           (records_of small_helper tape0)
           (snd (LXML.draw_all small_helper 3 tape0)) H).
Defined.

(** ** The pool: results come back by position *)

Lemma extract_perm {A} k (l : list A) x r :
  Pool.extract k l = Some (x, r) -> Permutation l (x :: r).
Proof.
  revert k x r. induction l as [|y l IH]; intros k x r H; [now destruct k|].
  destruct k as [|k]; cbn in H.
  - injection H as <- <-. apply Permutation_refl.
  - destruct (Pool.extract k l) as [[z r']|] eqn:E; [|discriminate].
    injection H as <- <-.
    apply Permutation_trans with (y :: z :: r'); [|apply perm_swap].
    apply perm_skip. eauto.
Qed.

Lemma schedule_perm {A} picks : forall pending : list A,
  Permutation (Pool.schedule picks pending) pending.
Proof.
  induction picks as [|k picks IH]; intros pending; cbn [Pool.schedule].
  - apply Permutation_refl.
  - destruct (Pool.extract _ pending) as [[x rest]|] eqn:E; [|apply Permutation_refl].
    apply extract_perm in E. apply Permutation_sym in E.
    eapply Permutation_trans; [|exact E]. apply perm_skip, IH.
Qed.

(** Every order of completion is the schedule of some picks. *)
Lemma schedule_onto {A} (order pending : list A) :
  Permutation order pending -> exists picks, Pool.schedule picks pending = order.
Proof.
  revert pending. induction order as [|x order IH]; intros pending Hp.
  - apply Permutation_nil in Hp as ->. now exists [].
  - assert (Hin : In x pending).
    { eapply Permutation_in; [exact Hp | now left]. }
    assert (Hex : exists k rest, (k < length pending)%nat /\
                    Pool.extract k pending = Some (x, rest)).
    { clear -Hin. induction pending as [|y l IHl]; [contradiction|].
      destruct Hin as [->|Hin].
      - exists 0%nat, l. split; [simpl; lia | reflexivity].
      - destruct (IHl Hin) as (k & rest & Hk & E).
        exists (Datatypes.S k), (y :: rest). split; [simpl; lia|]. cbn. now rewrite E. }
    destruct Hex as (k & rest & Hk & E).
    assert (Hrest : Permutation order rest).
    { apply extract_perm in E. eapply Permutation_cons_inv.
      eapply Permutation_trans; [exact Hp | exact E]. }
    destruct (IH rest Hrest) as (picks & Hs).
    exists (k :: picks). cbn [Pool.schedule].
    rewrite Nat.mod_small by exact Hk. now rewrite E, Hs.
Qed.

Lemma enumerate_fst {A} (xs : list A) k :
  List.map fst (Pool.enumerate k xs) = seq k (length xs).
Proof.
  revert k. induction xs as [|x xs IH]; intros k; [reflexivity|].
  cbn. now rewrite IH.
Qed.

Section PoolValues.

Context {S A B : Type}.
Variable f : A -> M S B.
Variable h : A -> B.
Hypothesis f_value : forall x s, fst (f x s) = inr (h x).

Lemma run_values order s :
  fst (Pool.run f order s) = List.map (task_outcome h) order.
Proof.
  revert s. induction order as [|[i x] order IH]; intros s; [reflexivity|].
  cbn [Pool.run]. specialize (f_value x s).
  destruct (f x s) as [r s1]. cbn in f_value. subst r.
  specialize (IH s1). destruct (Pool.run f order s1) as [rs s2].
  cbn in *. now rewrite IH.
Qed.

Lemma first_error_values order : Pool.first_error (List.map (task_outcome h) order) = None.
Proof. induction order as [|[i x] order IH]; [reflexivity | exact IH]. Qed.

Lemma value_at_absent i order :
  ~ In i (List.map fst order) -> Pool.value_at i (List.map (task_outcome h) order) = None.
Proof.
  induction order as [|[j y] order IH]; [reflexivity|]. cbn. intros H.
  destruct (Nat.eqb_spec i j) as [->|_]; [tauto|]. apply IH. tauto.
Qed.

Lemma value_at_member i x order :
  NoDup (List.map fst order) -> In (i, x) order ->
  Pool.value_at i (List.map (task_outcome h) order) = Some (h x).
Proof.
  induction order as [|[j y] order IH]; [contradiction|].
  cbn [List.map fst]. intros Hnd Hin. apply NoDup_cons in Hnd as [Hj Hnd].
  cbn. destruct Hin as [[= -> ->]|Hin].
  - now rewrite Nat.eqb_refl.
  - destruct (Nat.eqb_spec i j) as [->|_]; [|now apply IH].
    exfalso. apply Hj. apply list_elem_of_In.
    change j with (fst (j, x)). now apply in_map.
Qed.

Lemma gather_values done xs : forall k,
  (forall i x, In (i, x) (Pool.enumerate k xs) -> Pool.value_at i done = Some (h x)) ->
  flat_map (fun i => match Pool.value_at i done with Some b => [b] | None => [] end)
           (seq k (length xs))
  = List.map h xs.
Proof.
  induction xs as [|x xs IH]; intros k Hv; [reflexivity|].
  cbn [length seq flat_map List.map].
  rewrite (Hv k x) by now left.
  cbn [app]. f_equal. apply IH. intros i y Hin. apply Hv. now right.
Qed.

(** Whatever the order of completion, the value at position [i] is the
    value of the task on the [i]-th item. *)
Lemma pool_map_values xs picks s :
  fst (Pool.map f xs picks s) = inr (List.map h xs).
Proof.
  unfold Pool.map.
  pose proof (run_values (Pool.schedule picks (Pool.enumerate 0 xs)) s) as Hrun.
  destruct (Pool.run f _ s) as [done s']. cbn [fst] in Hrun. subst done.
  rewrite first_error_values. cbn [fst]. f_equal.
  unfold Pool.gather. apply gather_values. intros i x Hin.
  pose proof (schedule_perm picks (Pool.enumerate 0 xs)) as Hp.
  apply value_at_member.
  - rewrite (Permutation_map fst Hp), enumerate_fst. apply NoDup_seq.
  - eapply Permutation_in; [apply Permutation_sym, Hp | exact Hin].
Qed.

End PoolValues.

(** Tasks that only compute leave the state as it is. *)
Lemma pool_map_pure {S A B} (h : A -> B) (xs : list A) picks (s : S) :
  Pool.map (fun x => ret (h x)) xs picks s = (inr (List.map h xs), s).
Proof.
  pose proof (pool_map_values (fun x => ret (h x)) h (fun _ _ => eq_refl) xs picks s) as Hv.
  unfold Pool.map in *.
  assert (Hs : forall order, snd (Pool.run (fun x : A => ret (h x)) order s) = s).
  { induction order as [|[i x] order IH]; [reflexivity|].
    cbn [Pool.run]. unfold ret at 1.
    destruct (Pool.run _ order s) as [rs s2]. exact IH. }
  specialize (Hs (Pool.schedule picks (Pool.enumerate 0 xs))).
  destruct (Pool.run _ _ s) as [done s']. cbn [snd] in Hs. subst s'.
  destruct (Pool.first_error done); cbn [fst] in Hv; [discriminate|].
  now injection Hv as ->.
Qed.

(** ** The tables *)

Import pandas.

Lemma loc_append_fold {A} (row : A -> list cell) (l : list A) df :
  fold_left (fun df x => loc_append df (row x)) l df
  = {| columns := columns df; rows := rows df ++ List.map row l |}.
Proof.
  revert df. induction l as [|x l IH]; intros df; cbn [fold_left List.map].
  - rewrite List.app_nil_r. now destruct df.
  - rewrite IH. unfold loc_append. cbn [columns rows]. now rewrite <- List.app_assoc.
Qed.

Lemma parse_level_frame batch :
  CSV.parse_level batch
  = {| columns := ["id"; "level"];
       rows := List.map (fun r => [d_id r; d_level r]) batch |}.
Proof. unfold CSV.parse_level. now rewrite loc_append_fold. Qed.

Lemma parse_objects_fold (batch : list dict) df :
  fold_left
    (fun df element =>
       fold_left (fun df obj_name => loc_append df [d_id element; obj_name])
                 (d_object_names element) df)
    batch df
  = {| columns := columns df;
       rows := rows df ++
               flat_map (fun r => List.map (fun o => [d_id r; o]) (d_object_names r)) batch |}.
Proof.
  revert df. induction batch as [|r batch IH]; intros df; cbn [fold_left flat_map].
  - rewrite List.app_nil_r. now destruct df.
  - rewrite IH, (loc_append_fold (fun o => [d_id r; o])). cbn [columns rows].
    now rewrite <- List.app_assoc.
Qed.

Lemma parse_objects_frame batch :
  CSV.parse_objects batch
  = {| columns := ["id"; "object_name"];
       rows := flat_map (fun r => List.map (fun o => [d_id r; o]) (d_object_names r)) batch |}.
Proof. unfold CSV.parse_objects. now rewrite parse_objects_fold. Qed.

Lemma rows_levels data :
  flat_map rows (List.map CSV.parse_level data) = level_rows data.
Proof.
  unfold level_rows. induction data as [|b l IH]; [reflexivity|].
  cbn [List.map flat_map]. now rewrite IH, parse_level_frame.
Qed.

Lemma rows_objects data :
  flat_map rows (List.map CSV.parse_objects data) = object_rows data.
Proof.
  unfold object_rows. induction data as [|b l IH]; [reflexivity|].
  cbn [List.map flat_map]. now rewrite IH, parse_objects_frame.
Qed.

Lemma concat_levels batch data :
  concat (List.map CSV.parse_level (batch :: data))
  = inr {| columns := ["id"; "level"]; rows := level_rows (batch :: data) |}.
Proof.
  rewrite <- rows_levels. cbn [List.map concat]. now rewrite parse_level_frame at 1.
Qed.

Lemma concat_objects batch data :
  concat (List.map CSV.parse_objects (batch :: data))
  = inr {| columns := ["id"; "object_name"]; rows := object_rows (batch :: data) |}.
Proof.
  rewrite <- rows_objects. cbn [List.map concat]. now rewrite parse_objects_frame at 1.
Qed.

(** [CSV.write] on no batch at all: [pandas.concat] refuses the empty
    list and nothing is written. *)
Lemma write_empty picks1 picks2 w :
  CSV.write [] picks1 picks2 w = (inl ValueError, w).
Proof.
  unfold CSV.write, print_duration_time, bind. now rewrite pool_map_pure.
Qed.

(** [CSV.write] on at least one batch: both files are written, with the
    rows in the order of the batches. *)
Lemma write_nonempty batch data picks1 picks2 w :
  CSV.write (batch :: data) picks1 picks2 w
  = (inr tt,
     {| rng := rng w;
        fs := <["objects.csv" :=
                  Table {| columns := ["id"; "object_name"];
                           rows := object_rows (batch :: data) |}]>
              (<["levels.csv" :=
                   Table {| columns := ["id"; "level"];
                            rows := level_rows (batch :: data) |}]> (fs w)) |}).
Proof.
  unfold CSV.write, print_duration_time, bind.
  rewrite !pool_map_pure. unfold lift.
  rewrite concat_levels, pool_map_pure, concat_objects. reflexivity.
Qed.

Lemma level_rows_length data : length (level_rows data) = length (List.concat data).
Proof.
  unfold level_rows. induction data as [|b data IH]; [reflexivity|].
  cbn [flat_map List.concat]. rewrite !length_app, length_map. f_equal. exact IH.
Qed.

Lemma object_rows_length data : length (object_rows data) = object_count data.
Proof.
  unfold object_rows, object_count.
  induction data as [|b data IH]; [reflexivity|].
  cbn [flat_map List.concat]. rewrite length_app, List.map_app, list_sum_app.
  f_equal; [clear IH | exact IH]. induction b as [|r b IHb]; [reflexivity|].
  cbn [flat_map List.map]. rewrite length_app, length_map.
  change (list_sum (?x :: ?l)) with (x + list_sum l)%nat. f_equal. exact IHb.
Qed.

Lemma batches_concat_length m k data :
  batches m k data -> length (List.concat data) = (m * k)%nat.
Proof.
  intros [<- Hk]. induction Hk as [|b data Hb _ IH]; [reflexivity|].
  cbn [List.concat length]. rewrite length_app, IH, Hb. lia.
Qed.

(** C5, as stated, fails for no batch at all: [CSV.write] raises and
    produces no table. *)
Lemma C5_counterexample_no_batches :
  ~ (forall (m k : nat) (data : list (list dict)) picks1 picks2 w,
       batches m k data ->
       exists w' levels objects,
         CSV.write data picks1 picks2 w = (inr tt, w') /\
         fs w' !! "levels.csv" = Some (Table levels) /\
         fs w' !! "objects.csv" = Some (Table objects) /\
         length (rows levels) = (m * k)%nat /\
         length (rows objects) = object_count data).
Proof.
  intros H.
  destruct (H 0%nat 3%nat [] [] [] small_world) as (w' & lv & ob & Hw & _).
  - split; [reflexivity | constructor].
  - rewrite write_empty in Hw. discriminate.
Qed.

(** C5, amended. For at least one batch, [m] batches of [k] records
    each give a levels table of [m * k] rows and an objects table with
    one row per object of the [m * k] records. *)
Theorem C5_table_row_counts
    (m k : nat) (data : list (list dict)) (picks1 picks2 : list nat) (w : world) :
  (1 <= m)%nat -> batches m k data ->
  exists w' levels objects,
    CSV.write data picks1 picks2 w = (inr tt, w') /\
    fs w' !! "levels.csv" = Some (Table levels) /\
    fs w' !! "objects.csv" = Some (Table objects) /\
    length (rows levels) = (m * k)%nat /\
    length (List.concat data) = (m * k)%nat /\
    length (rows objects)
    = list_sum (List.map (fun r => length (d_object_names r)) (List.concat data)).
Proof.
  intros Hm Hb. pose proof (batches_concat_length m k data Hb) as Hlen.
  destruct data as [|batch data]; [destruct Hb as [Hb _]; simpl in Hb; lia|].
  eexists _, _, _. split; [apply write_nonempty|]. cbn [fs rows].
  split; [rewrite lookup_insert_ne by discriminate; apply lookup_insert_eq|].
  split; [apply lookup_insert_eq|]. cbn [rows].
  split; [now rewrite level_rows_length|].
  split; [exact Hlen | apply object_rows_length].
Qed.

Lemma C5_witness_two_batches :
  (1 <= 2)%nat /\ batches 2 3 two_batches /\
  exists w' levels objects,
    CSV.write two_batches [1%nat] [] small_world = (inr tt, w') /\
    fs w' !! "levels.csv" = Some (Table levels) /\
    fs w' !! "objects.csv" = Some (Table objects) /\
    length (rows levels) = 6%nat /\
    length (List.concat two_batches) = 6%nat /\
    length (rows objects) = 6%nat.
Proof.
  assert (Hb : batches 2 3 two_batches).
  { split; [reflexivity | repeat constructor]. }
  split; [lia|]. split; [exact Hb|].
  apply (C5_table_row_counts 2 3 two_batches [1%nat] [] small_world); [lia | exact Hb].
Defined.

(** C6. Whatever the order in which the pool's tasks complete, when
    [CSV.write] returns both files hold the rows batch after batch in
    the order the batches were given, record after record within a
    batch, and in the objects table name after name within a record; it
    raises only when there is no batch. *)
Theorem C6_rows_in_batch_order
    (data : list (list dict)) (picks1 picks2 : list nat) (w : world) :
  match CSV.write data picks1 picks2 w with
  | (inr _, w') =>
      fs w' !! "levels.csv"
      = Some (Table {| columns := ["id"; "level"];
                       rows := flat_map (fun batch =>
                                 List.map (fun r => [d_id r; d_level r]) batch) data |}) /\
      fs w' !! "objects.csv"
      = Some (Table {| columns := ["id"; "object_name"];
                       rows := flat_map (fun batch =>
                                 flat_map (fun r =>
                                   List.map (fun o => [d_id r; o]) (d_object_names r))
                                   batch) data |}) /\
      Pool.map (fun d => ret (CSV.parse_level d)) data picks1 w
      = (inr (List.map CSV.parse_level data), w) /\
      Pool.map (fun d => ret (CSV.parse_objects d)) data picks2 w
      = (inr (List.map CSV.parse_objects data), w)
  | (inl _, _) => data = []
  end.
Proof.
  destruct data as [|batch data].
  - now rewrite write_empty.
  - rewrite write_nonempty. cbn [fs].
    split; [rewrite lookup_insert_ne by discriminate; apply lookup_insert_eq|].
    split; [apply lookup_insert_eq|].
    split; apply pool_map_pure.
Qed.

(** ** Building the archives in the pool *)

Lemma create_value self prefix w :
  valid (Zip.xml self) -> fst (Zip.create self prefix w) = inr (zip_name prefix).
Proof.
  intros Hv.
  destruct (draw_all_total _ Hv (Z.to_nat (LXML.xml_count (Zip.xml self))) (rng w))
    as (rs & e' & Hd & _).
  now rewrite (create_built self prefix w rs e' Hd).
Qed.

Lemma create_establishes self prefix w :
  valid (Zip.xml self) ->
  has_archive (Z.to_nat (LXML.xml_count (Zip.xml self))) (zip_name prefix)
              (snd (Zip.create self prefix w)).
Proof.
  intros Hv.
  destruct (draw_all_total _ Hv (Z.to_nat (LXML.xml_count (Zip.xml self))) (rng w))
    as (rs & e' & Hd & Hlen).
  rewrite (create_built self prefix w rs e' Hd). cbn [snd].
  eexists. cbn [fs]. split; [apply lookup_insert_eq|].
  unfold archive_of. now rewrite archive_length, length_map.
Qed.

Lemma create_preserves self prefix w name :
  valid (Zip.xml self) ->
  has_archive (Z.to_nat (LXML.xml_count (Zip.xml self))) name w ->
  has_archive (Z.to_nat (LXML.xml_count (Zip.xml self))) name
              (snd (Zip.create self prefix w)).
Proof.
  intros Hv Hw.
  destruct (String.eqb_spec (zip_name prefix) name) as [<-|Hne];
    [now apply create_establishes|].
  destruct (draw_all_total _ Hv (Z.to_nat (LXML.xml_count (Zip.xml self))) (rng w))
    as (rs & e' & Hd & Hlen).
  rewrite (create_built self prefix w rs e' Hd). cbn [snd].
  destruct Hw as (zf & Hzf & Hl). exists zf. cbn [fs].
  now rewrite lookup_insert_ne.
Qed.

Lemma run_preserves self order w name :
  valid (Zip.xml self) ->
  has_archive (Z.to_nat (LXML.xml_count (Zip.xml self))) name w ->
  has_archive (Z.to_nat (LXML.xml_count (Zip.xml self))) name
              (snd (Pool.run (Zip.create self) order w)).
Proof.
  intros Hv. revert w. induction order as [|[i x] order IH]; intros w Hw; [exact Hw|].
  cbn [Pool.run]. pose proof (create_preserves self x w name Hv Hw) as H1.
  destruct (Zip.create self x w) as [r w1]. cbn [snd] in H1.
  specialize (IH w1 H1). destruct (Pool.run _ order w1) as [rs w2]. exact IH.
Qed.

Lemma run_establishes self order w i x :
  valid (Zip.xml self) -> In (i, x) order ->
  has_archive (Z.to_nat (LXML.xml_count (Zip.xml self))) (zip_name x)
              (snd (Pool.run (Zip.create self) order w)).
Proof.
  intros Hv. revert w. induction order as [|[j y] order IH]; intros w Hin; [contradiction|].
  cbn [Pool.run]. destruct Hin as [[= -> ->]|Hin].
  - pose proof (create_establishes self x w Hv) as H1.
    destruct (Zip.create self x w) as [r w1]. cbn [snd] in H1.
    pose proof (run_preserves self order w1 _ Hv H1) as H2.
    destruct (Pool.run _ order w1) as [rs w2]. exact H2.
  - destruct (Zip.create self y w) as [r w1].
    specialize (IH w1 Hin). destruct (Pool.run _ order w1) as [rs w2]. exact IH.
Qed.

Lemma enumerate_In {A} (xs : list A) k i x :
  nth_error xs i = Some x -> In ((k + i)%nat, x) (Pool.enumerate k xs).
Proof.
  revert k i. induction xs as [|y xs IH]; intros k i H; [now destruct i|].
  destruct i as [|i]; cbn in *.
  - injection H as ->. left. f_equal. lia.
  - right. replace (k + Datatypes.S i)%nat with (Datatypes.S k + i)%nat by lia. now apply IH.
Qed.

Lemma range_nth count i :
  0 <= i < count -> nth_error (range count) (Z.to_nat i) = Some i.
Proof.
  intros Hi. unfold range. rewrite nth_error_map.
  rewrite nth_error_seq.
  destruct (Nat.ltb_spec (Z.to_nat i) (Z.to_nat count)) as [_|H]; [|lia].
  cbn. f_equal. lia.
Qed.

Lemma range_length count : length (range count) = Z.to_nat count.
Proof. unfold range. now rewrite length_map, length_seq. Qed.

(** What [Zip.generate_files] leaves behind, whatever the order in which
    the pool's tasks complete. *)
Lemma generate_files_spec self count picks w :
  valid (Zip.xml self) ->
  exists w',
    Zip.generate_files count picks (self, w)
    = (inr tt, ({| Zip.xml := Zip.xml self;
                   Zip.generated_files := List.map zip_name (range count);
                   Zip.loaded_data := Zip.loaded_data self |}, w')) /\
    forall i, 0 <= i < count ->
      has_archive (Z.to_nat (LXML.xml_count (Zip.xml self))) (zip_name i) w'.
Proof.
  intros Hv. unfold Zip.generate_files, print_duration_time, bind.
  pose proof (pool_map_values (Zip.create self) zip_name
                (fun x s => create_value self x s Hv) (range count) picks w) as Hval.
  assert (Harch : forall i, 0 <= i < count ->
            has_archive (Z.to_nat (LXML.xml_count (Zip.xml self))) (zip_name i)
                        (snd (Pool.map (Zip.create self) (range count) picks w))).
  { intros i Hi. unfold Pool.map.
    pose proof (run_establishes self
                  (Pool.schedule picks (Pool.enumerate 0 (range count))) w
                  (Z.to_nat i) i Hv) as Hr.
    destruct (Pool.run _ _ w) as [done w1]. cbn [snd] in Hr.
    assert (has_archive (Z.to_nat (LXML.xml_count (Zip.xml self))) (zip_name i) w1).
    { apply Hr. eapply Permutation_in; [apply Permutation_sym, schedule_perm|].
      apply (enumerate_In (range count) 0%nat (Z.to_nat i) i), range_nth, Hi. }
    now destruct (Pool.first_error done). }
  destruct (Pool.map (Zip.create self) (range count) picks w) as [r w1].
  cbn [fst snd] in *. subst r. exists w1. split; [reflexivity | exact Harch].
Qed.

(** C9. After [Zip.generate_files(n)] over a valid configuration,
    [generated_files] has exactly [n] entries, entry [i] is the name
    [i.zip], and the file of that name is the archive task [i] built,
    whatever the order in which the tasks completed. *)
Theorem C9_generated_files_by_index
    (self : Zip.t) (count : Z) (picks : list nat) (w : world) :
  valid (Zip.xml self) ->
  exists self' w',
    Zip.generate_files count picks (self, w) = (inr tt, (self', w')) /\
    Zip.generated_files self' = List.map (fun i => str i +:+ ".zip") (range count) /\
    length (Zip.generated_files self') = Z.to_nat count /\
    forall i, 0 <= i < count ->
      nth_error (Zip.generated_files self') (Z.to_nat i) = Some (str i +:+ ".zip") /\
      exists zf, fs w' !! (str i +:+ ".zip") = Some (Archive zf) /\
                 length zf = Z.to_nat (LXML.xml_count (Zip.xml self)).
Proof.
  intros Hv. destruct (generate_files_spec self count picks w Hv) as (w' & Hg & Ha).
  eexists _, w'. split; [exact Hg|]. cbn [Zip.generated_files].
  split; [reflexivity|]. split; [now rewrite length_map, range_length|].
  intros i Hi. split; [|exact (Ha i Hi)].
  now rewrite nth_error_map, range_nth.
Qed.

Lemma C9_witness_two_archives :
  valid small_helper /\
  exists self' w',
    Zip.generate_files 2 [1%nat] (Zip.init small_helper, small_world)
    = (inr tt, (self', w')) /\
    Zip.generated_files self' = ["0.zip"; "1.zip"] /\
    length (Zip.generated_files self') = 2%nat /\
    forall i, 0 <= i < 2 ->
      nth_error (Zip.generated_files self') (Z.to_nat i) = Some (str i +:+ ".zip") /\
      exists zf, fs w' !! (str i +:+ ".zip") = Some (Archive zf) /\ length zf = 3%nat.
Proof.
  pose proof valid_small_helper as Hv.
  split; [exact Hv|].
  exact (C9_generated_files_by_index (Zip.init small_helper) 2 [1%nat] small_world Hv).
Defined.

(** ** Reading the archives *)

Lemma read_world self name w : snd (Zip.read self name w) = w.
Proof.
  unfold Zip.read. destruct (fs w !! name) as [[zf|df]|]; reflexivity.
Qed.

Lemma read_loop_spec names : forall self w,
  exists batches self' r,
    Zip.read_loop names (self, w) = (r, (self', w)) /\
    Zip.xml self' = Zip.xml self /\
    Zip.generated_files self' = Zip.generated_files self /\
    Zip.loaded_data self' = Zip.loaded_data self ++ batches /\
    match r with
    | inr _ => Forall2 (fun name batch => Zip.read self name w = (inr batch, w)) names batches
    | inl err =>
        (length batches < length names)%nat /\
        exists name, In name names /\ Zip.read self name w = (inl err, w)
    end.
Proof.
  induction names as [|name names IH]; intros self w.
  - exists [], self, (inr tt). cbn. rewrite List.app_nil_r. repeat split; constructor.
  - cbn [Zip.read_loop]. pose proof (read_world self name w) as Hw.
    destruct (Zip.read self name w) as [[err|batch] w1] eqn:Hr; cbn [snd] in Hw; subst w1.
    + exists [], self, (inl err). rewrite List.app_nil_r. repeat split; [simpl; lia|].
      exists name. split; [now left | exact Hr].
    + destruct (IH {| Zip.xml := Zip.xml self;
                      Zip.generated_files := Zip.generated_files self;
                      Zip.loaded_data := Zip.loaded_data self ++ [batch] |} w)
        as (bs & self' & r & Hl & Hx & Hg & Hd & Hres).
      exists (batch :: bs), self', r. rewrite Hl. cbn in Hx, Hg, Hd.
      repeat split; try assumption.
      * now rewrite Hd, <- List.app_assoc.
      * destruct r as [err|u].
        -- destruct Hres as (Hlt & n & Hn & Hrn). split; [simpl; lia|].
           exists n. split; [now right | exact Hrn].
        -- constructor; assumption.
Qed.

Lemma read_generated_spec self w :
  exists batches self' r,
    Zip.read_generated (self, w) = (r, (self', w)) /\
    Zip.xml self' = Zip.xml self /\
    Zip.generated_files self' = Zip.generated_files self /\
    Zip.loaded_data self' = Zip.loaded_data self ++ batches /\
    match r with
    | inr _ => Forall2 (fun name batch => Zip.read self name w = (inr batch, w))
                       (Zip.generated_files self) batches
    | inl err =>
        (length batches < length (Zip.generated_files self))%nat /\
        exists name, In name (Zip.generated_files self) /\
                     Zip.read self name w = (inl err, w)
    end.
Proof.
  destruct (read_loop_spec (Zip.generated_files self) self w)
    as (bs & self' & r & Hl & Hx & Hg & Hd & Hres).
  unfold Zip.read_generated, print_duration_time, bind. rewrite Hl.
  destruct r as [err|[]].
  - exists bs, self', (inl err). auto.
  - exists bs, self', (inr tt). auto.
Qed.

Lemma Forall2_read_fun self w names bs1 bs2 :
  Forall2 (fun name batch => Zip.read self name w = (inr batch, w)) names bs1 ->
  Forall2 (fun name batch => Zip.read self name w = (inr batch, w)) names bs2 ->
  bs1 = bs2.
Proof.
  intros H. revert bs2. induction H as [|n b names bs1 Hb _ IH]; intros bs2 H2.
  - now inversion H2.
  - inversion H2 as [|? b2 ? bs2' Hb2 H2']; subst.
    rewrite Hb in Hb2. injection Hb2 as <-. f_equal. now apply IH.
Qed.

Lemma Forall2_read_In self w names bs name :
  Forall2 (fun name batch => Zip.read self name w = (inr batch, w)) names bs ->
  In name names -> exists batch, Zip.read self name w = (inr batch, w).
Proof.
  induction 1 as [|n b names bs Hb _ IH]; [contradiction|].
  intros [->|Hin]; eauto.
Qed.

Lemma read_loop_stops names : forall self w,
  exists k batches r,
    Zip.read_loop names (self, w)
    = (r, ({| Zip.xml := Zip.xml self;
              Zip.generated_files := Zip.generated_files self;
              Zip.loaded_data := Zip.loaded_data self ++ batches |}, w)) /\
    Forall2 (fun name batch => Zip.read self name w = (inr batch, w))
            (firstn k names) batches /\
    match r with
    | inr _ => k = length names
    | inl err => exists name, nth_error names k = Some name /\
                              Zip.read self name w = (inl err, w)
    end.
Proof.
  induction names as [|name names IH]; intros self w.
  - exists 0%nat, [], (inr tt). cbn. rewrite List.app_nil_r.
    destruct self. repeat split; constructor.
  - cbn [Zip.read_loop]. pose proof (read_world self name w) as Hw.
    destruct (Zip.read self name w) as [[err|batch] w1] eqn:Hr; cbn [snd] in Hw; subst w1.
    + exists 0%nat, [], (inl err). rewrite List.app_nil_r. destruct self.
      repeat split; [constructor|]. exists name. now split.
    + destruct (IH {| Zip.xml := Zip.xml self;
                      Zip.generated_files := Zip.generated_files self;
                      Zip.loaded_data := Zip.loaded_data self ++ [batch] |} w)
        as (k & bs & r & Hl & Hf & Hres).
      exists (Datatypes.S k), (batch :: bs), r. rewrite Hl.
      cbn [Zip.xml Zip.generated_files Zip.loaded_data]. rewrite <- List.app_assoc.
      repeat split.
      * cbn [firstn]. constructor; [exact Hr | exact Hf].
      * destruct r as [err|u]; [exact Hres | simpl; now rewrite Hres].
Qed.

Lemma Forall2_read_nth self w names bs k name :
  Forall2 (fun name batch => Zip.read self name w = (inr batch, w)) names bs ->
  nth_error names k = Some name -> exists batch, Zip.read self name w = (inr batch, w).
Proof.
  intros HF Hn. apply nth_error_In in Hn. eapply Forall2_read_In; eauto.
Qed.

(** C10. [Zip.read_generated] leaves [xml], [generated_files] and the
    files as they are and only appends to [loaded_data], never clearing
    it: it reads the archives of [generated_files] in order and appends
    the batch of each; when every archive is read it returns, and
    [loaded_data] is then what it was followed by one batch per name; a
    second call appends the same batches once more.  When the read of an
    archive raises, that exception is raised and the batches of the
    archives before it stay appended. *)
Theorem C10_read_generated_appends (self : Zip.t) (w : world) :
  exists k batches r,
    Zip.read_generated (self, w)
    = (r, ({| Zip.xml := Zip.xml self;
              Zip.generated_files := Zip.generated_files self;
              Zip.loaded_data := Zip.loaded_data self ++ batches |}, w)) /\
    Forall2 (fun name batch => Zip.read self name w = (inr batch, w))
            (firstn k (Zip.generated_files self)) batches /\
    match r with
    | inr _ =>
        k = length (Zip.generated_files self) /\
        length batches = length (Zip.generated_files self) /\
        Zip.read_generated
          ({| Zip.xml := Zip.xml self;
              Zip.generated_files := Zip.generated_files self;
              Zip.loaded_data := Zip.loaded_data self ++ batches |}, w)
        = (inr tt,
           ({| Zip.xml := Zip.xml self;
               Zip.generated_files := Zip.generated_files self;
               Zip.loaded_data := Zip.loaded_data self ++ batches ++ batches |}, w))
    | inl err =>
        exists name, nth_error (Zip.generated_files self) k = Some name /\
                     Zip.read self name w = (inl err, w)
    end.
Proof.
  destruct (read_loop_stops (Zip.generated_files self) self w)
    as (k & bs & r & Hl & Hf & Hres).
  exists k, bs, r. split.
  { unfold Zip.read_generated, print_duration_time, bind. rewrite Hl.
    now destruct r as [err|[]]. }
  split; [exact Hf|].
  destruct r as [err|u]; [exact Hres|]. subst k. rewrite firstn_all in Hf.
  split; [reflexivity|]. split; [symmetry; exact (Forall2_length _ _ _ Hf)|].
  destruct (read_loop_stops (Zip.generated_files self)
              {| Zip.xml := Zip.xml self;
                 Zip.generated_files := Zip.generated_files self;
                 Zip.loaded_data := Zip.loaded_data self ++ bs |} w)
    as (k2 & bs2 & r2 & Hl2 & Hf2 & Hres2).
  cbn [Zip.xml Zip.generated_files Zip.loaded_data] in Hl2.
  unfold Zip.read_generated, print_duration_time, bind.
  cbn [Zip.generated_files]. rewrite Hl2.
  destruct r2 as [err|[]].
  - destruct Hres2 as (name & Hn & Hfail).
    destruct (Forall2_read_nth self w _ _ k2 name Hf Hn) as (b & Hb).
    change (Zip.read _ name w) with (Zip.read self name w) in Hfail.
    rewrite Hb in Hfail. discriminate.
  - subst k2. rewrite firstn_all in Hf2.
    assert (bs2 = bs) as -> by (eapply Forall2_read_fun; eauto).
    now rewrite <- List.app_assoc.
Qed.

(** ** Invalid configurations *)

Lemma bind_inl {S A B} (m : M S A) (k : A -> M S B) s err s' :
  bind m k s = (inl err, s') ->
  m s = (inl err, s') \/ exists a s1, m s = (inr a, s1) /\ k a s1 = (inl err, s').
Proof.
  unfold bind. destruct (m s) as [[x|a] s1]; intros H.
  - left. now injection H as -> ->.
  - right. eauto.
Qed.

Lemma replicateM_inl {S A} (m : M S A) :
  (forall s err s', m s = (inl err, s') -> err = ValueError) ->
  forall n s err s', replicateM n m s = (inl err, s') -> err = ValueError.
Proof.
  intros Hm. induction n as [|n IH]; intros s err s' H; cbn [replicateM] in H.
  - discriminate.
  - apply bind_inl in H as [H|(x & s1 & _ & H)]; [eauto|].
    apply bind_inl in H as [H|(xs & s2 & _ & H)]; [eauto | discriminate].
Qed.

Lemma random_byte_inl e err e' : random_byte e <> (inl err, e').
Proof. unfold random_byte, bind, next_draw, ret. discriminate. Qed.

Lemma urandom_inl n e err e' : urandom n e = (inl err, e') -> err = ValueError.
Proof.
  unfold urandom. destruct (n <? 0); [unfold raise; now intros [= <- _]|].
  apply replicateM_inl. intros s x s' H. now apply random_byte_inl in H.
Qed.

Lemma randbelow_inl n e err e' : randbelow n e = (inl err, e') -> err = ValueError.
Proof.
  unfold randbelow. destruct (n <=? 0); [unfold raise; now intros [= <- _]|].
  unfold bind, next_draw, ret. discriminate.
Qed.

Lemma token_urlsafe_inl n e err e' : token_urlsafe n e = (inl err, e') -> err = ValueError.
Proof.
  unfold token_urlsafe, token_bytes. intros H.
  apply bind_inl in H as [H|(x & s1 & _ & H)]; [now apply urandom_inl in H | discriminate].
Qed.

Lemma token_hex_inl n e err e' : token_hex n e = (inl err, e') -> err = ValueError.
Proof.
  unfold token_hex, token_bytes. intros H.
  apply bind_inl in H as [H|(x & s1 & _ & H)]; [now apply urandom_inl in H | discriminate].
Qed.

Lemma draw_inl self e err e' : LXML.draw self e = (inl err, e') -> err = ValueError.
Proof.
  unfold LXML.draw. intros H.
  apply bind_inl in H as [H|(n & e1 & _ & H)]; [now apply randbelow_inl in H|].
  apply bind_inl in H as [H|(names & e2 & _ & H)].
  { revert H. apply replicateM_inl. intros s x s'. apply token_urlsafe_inl. }
  apply bind_inl in H as [H|(i & e3 & _ & H)]; [now apply token_hex_inl in H|].
  apply bind_inl in H as [H|(l & e4 & _ & H)]; [now apply randbelow_inl in H | discriminate].
Qed.

Lemma draw_inr_valid self e r e' : LXML.draw self e = (inr r, e') -> valid self.
Proof.
  intros H. apply draw_inr in H as (n & l & Hn & Hl & _ & Hlen & Hnames & Hid).
  unfold valid. repeat split; try lia.
  - destruct (rec_objects r) as [|nm nms]; [simpl in Hlen; lia|].
    inversion Hnames as [|? ? (tok & Hk & _) _]. exact Hk.
  - destruct Hid as (tok & Hk & _). exact Hk.
Qed.

(** One turn of the loop either draws a record, and then the
    configuration is valid, or raises [ValueError], and then it is not. *)
Lemma draw_cases self e :
  (exists r e', LXML.draw self e = (inr r, e') /\ valid self) \/
  (exists e', LXML.draw self e = (inl ValueError, e') /\ ~ valid self).
Proof.
  destruct (LXML.draw self e) as [[err|r] e'] eqn:H.
  - right. exists e'. pose proof (draw_inl _ _ _ _ H) as ->. split; [reflexivity|].
    intros Hv. destruct (draw_total self e Hv) as (r & e1 & H1). congruence.
  - left. exists r, e'. split; [reflexivity | eapply draw_inr_valid; eauto].
Qed.

(** X1. With a valid configuration [LXML.generate] yields exactly
    [xml_count] documents (none when [xml_count] is not positive) and
    does not raise. *)
Theorem generate_yields_count (self : LXML.t) (e : secrets.entropy) :
  valid self ->
  exists docs e',
    LXML.generate self e = ((docs, None), e') /\
    length docs = Z.to_nat (LXML.xml_count self).
Proof.
  intros Hv. destruct (generate_total self e Hv) as (rs & e' & Hg & Hlen & _).
  exists (List.map LXML.document rs), e'. split; [exact Hg | now rewrite length_map].
Qed.

Lemma generate_yields_count_witness :
  valid small_helper /\
  exists docs e',
    LXML.generate small_helper tape0 = ((docs, None), e') /\ length docs = 3%nat.
Proof.
  split; [exact valid_small_helper|].
  exact (generate_yields_count small_helper tape0 valid_small_helper).
Defined.

(** X2. With a configuration that is not valid (an upper bound that is
    not positive, a negative length) and at least one document asked
    for, [LXML.generate] raises [ValueError] in its first turn and yields
    no document. *)
Theorem generate_invalid_raises (self : LXML.t) (e : secrets.entropy) :
  ~ valid self -> 1 <= LXML.xml_count self ->
  exists e', LXML.generate self e = (([], Some ValueError), e').
Proof.
  intros Hnv Hc. unfold LXML.generate.
  destruct (Z.to_nat (LXML.xml_count self)) as [|n] eqn:En; [lia|].
  cbn [LXML.draw_all].
  destruct (draw_cases self e) as [(r & e' & _ & Hv)|(e' & -> & _)]; [contradiction|].
  now exists e'.
Qed.

Lemma generate_invalid_raises_witness :
  ~ valid broken_helper /\ 1 <= LXML.xml_count broken_helper /\
  exists e', LXML.generate broken_helper tape0 = (([], Some ValueError), e').
Proof.
  assert (Hnv : ~ valid broken_helper).
  { intros (H & _). vm_compute in H. discriminate. }
  assert (Hc : 1 <= LXML.xml_count broken_helper) by (vm_compute; discriminate).
  split; [exact Hnv|]. split; [exact Hc|].
  exact (generate_invalid_raises broken_helper tape0 Hnv Hc).
Defined.

(** X3. When the generator raises, [Zip.create] raises the same
    exception, and the archive it had opened is left behind, closed and
    empty. *)
Theorem create_invalid_leaves_empty_archive (self : Zip.t) (prefix : Z) (w : world) :
  ~ valid (Zip.xml self) -> 1 <= LXML.xml_count (Zip.xml self) ->
  exists w',
    Zip.create self prefix w = (inl ValueError, w') /\
    fs w' !! (str prefix +:+ ".zip") = Some (Archive []) /\
    forall name, name <> str prefix +:+ ".zip" -> fs w' !! name = fs w !! name.
Proof.
  intros Hnv Hc. unfold Zip.create.
  destruct (generate_invalid_raises (Zip.xml self) (rng w) Hnv Hc) as (e' & ->).
  eexists. split; [reflexivity|]. cbn [fs enumerate_from fold_left].
  split; [apply lookup_insert_eq|].
  intros name Hne. now apply lookup_insert_ne.
Qed.

Lemma create_invalid_leaves_empty_archive_witness :
  ~ valid broken_helper /\ 1 <= LXML.xml_count broken_helper /\
  exists w',
    Zip.create (Zip.init broken_helper) 0 small_world = (inl ValueError, w') /\
    fs w' !! "0.zip" = Some (Archive []) /\
    forall name, name <> "0.zip" -> fs w' !! name = fs small_world !! name.
Proof.
  assert (Hnv : ~ valid broken_helper).
  { intros (H & _). vm_compute in H. discriminate. }
  assert (Hc : 1 <= LXML.xml_count broken_helper) by (vm_compute; discriminate).
  split; [exact Hnv|]. split; [exact Hc|].
  exact (create_invalid_leaves_empty_archive (Zip.init broken_helper) 0 small_world Hnv Hc).
Defined.

(** X4. [Zip.create] writes one file only: whether it returns or raises,
    the file [prefix.zip] is an archive afterwards, replacing whatever
    was there, and every other file is as it was. *)
Theorem create_writes_one_file (self : Zip.t) (prefix : Z) (w : world) :
  (exists zf, fs (snd (Zip.create self prefix w)) !! (str prefix +:+ ".zip")
              = Some (Archive zf)) /\
  forall name, name <> str prefix +:+ ".zip" ->
    fs (snd (Zip.create self prefix w)) !! name = fs w !! name.
Proof.
  unfold Zip.create. destruct (LXML.generate (Zip.xml self) (rng w)) as [[docs x] e].
  destruct x as [err|]; cbn [snd fs].
  - split; [eexists; apply lookup_insert_eq|].
    intros name Hne. now apply lookup_insert_ne.
  - split; [eexists; apply lookup_insert_eq|].
    intros name Hne. now apply lookup_insert_ne.
Qed.

(** ** Reading archives *)

Lemma read_members_first_bad zf member post err :
  NoDup (zipfile.namelist zf) ->
  LXML.read (snd member) = inl err ->
  forall pre,
    (forall p, In p (pre ++ member :: post) -> In p zf) ->
    Forall (fun m => exists d, LXML.read (snd m) = inr d) pre ->
    Zip.read_members zf (zipfile.namelist (pre ++ member :: post)) = inl err.
Proof.
  intros Hnd Hbad. induction pre as [|[n d] pre IH]; intros Hincl Hok.
  - destruct member as [n d]. cbn [app zipfile.namelist List.map fst Zip.read_members].
    rewrite (open_member zf n d Hnd) by (apply Hincl; now left).
    cbn [snd] in Hbad. now rewrite Hbad.
  - cbn [app zipfile.namelist List.map fst Zip.read_members].
    rewrite (open_member zf n d Hnd) by (apply Hincl; now left).
    apply Forall_cons in Hok as [(dd & Hd) Hok]. cbn [snd] in Hd. rewrite Hd.
    fold (zipfile.namelist (pre ++ member :: post)).
    now rewrite (IH (fun p Hp => Hincl p (or_intror Hp)) Hok).
Qed.

(** X6. One member that cannot be decoded aborts the whole read: when
    [LXML.read] raises on a member of an archive with distinct member
    names and decodes the members listed before it, [Zip.read] raises
    that exception and returns no list, whatever follows. *)
Theorem read_aborts_on_bad_member
    (self : Zip.t) (zip_file : string) (w : world)
    (pre : zipfile.ZipFile) (member : string * bytes) (post : zipfile.ZipFile)
    (err : exn) :
  fs w !! zip_file = Some (Archive (pre ++ member :: post)) ->
  NoDup (zipfile.namelist (pre ++ member :: post)) ->
  Forall (fun m => exists d, LXML.read (snd m) = inr d) pre ->
  LXML.read (snd member) = inl err ->
  Zip.read self zip_file w = (inl err, w).
Proof.
  intros Hf Hnd Hok Hbad. unfold Zip.read. rewrite Hf.
  now rewrite (read_members_first_bad _ member post err Hnd Hbad pre (fun p Hp => Hp) Hok).
Qed.

Lemma read_aborts_on_bad_member_witness :
  fs world_with_bad_archive !! "0.zip"
  = Some (Archive ([("0.xml", doc_without_value)] ++ ("1.xml", doc_without_objects) :: [])) /\
  NoDup (zipfile.namelist
           ([("0.xml", doc_without_value)] ++ ("1.xml", doc_without_objects) :: [])) /\
  Forall (fun m => exists d, LXML.read (snd m) = inr d) [("0.xml", doc_without_value)] /\
  LXML.read (snd ("1.xml", doc_without_objects)) = inl AttributeError /\
  Zip.read (Zip.init small_helper) "0.zip" world_with_bad_archive
  = (inl AttributeError, world_with_bad_archive).
Proof.
  assert (H1 : fs world_with_bad_archive !! "0.zip"
               = Some (Archive ([("0.xml", doc_without_value)]
                                ++ ("1.xml", doc_without_objects) :: [])))
    by (vm_compute; reflexivity).
  assert (H2 : NoDup (zipfile.namelist
                        ([("0.xml", doc_without_value)]
                         ++ ("1.xml", doc_without_objects) :: []))).
  { apply (bool_decide_unpack _). vm_compute. exact I. }
  assert (H3 : Forall (fun m => exists d, LXML.read (snd m) = inr d)
                      [("0.xml", doc_without_value)]).
  { constructor; [|constructor]. eexists. exact read_doc_without_value. }
  assert (H4 : LXML.read (snd ("1.xml", doc_without_objects)) = inl AttributeError)
    by (vm_compute; reflexivity).
  split; [exact H1|]. split; [exact H2|]. split; [exact H3|]. split; [exact H4|].
  exact (read_aborts_on_bad_member (Zip.init small_helper) "0.zip"
           world_with_bad_archive [("0.xml", doc_without_value)]
           ("1.xml", doc_without_objects) [] AttributeError H1 H2 H3 H4).
Defined.

(** A file that is not there, or that is no archive, is refused and
    the world is left as it is. *)
Lemma read_missing_file self zip_file w :
  fs w !! zip_file = None -> Zip.read self zip_file w = (inl FileNotFoundError, w).
Proof. intros H. unfold Zip.read. now rewrite H. Qed.

(** X7. [Zip.read_generated] reads the archives of [generated_files] in
    order and stops at the first one that cannot be read: the exception
    of that read is raised, and the batches of the archives before it
    stay appended to [loaded_data]. *)
Theorem read_generated_stops_at_first_failure (self : Zip.t) (w : world) :
  exists k batches r,
    Zip.read_generated (self, w)
    = (r, ({| Zip.xml := Zip.xml self;
              Zip.generated_files := Zip.generated_files self;
              Zip.loaded_data := Zip.loaded_data self ++ batches |}, w)) /\
    Forall2 (fun name batch => Zip.read self name w = (inr batch, w))
            (firstn k (Zip.generated_files self)) batches /\
    match r with
    | inr _ => k = length (Zip.generated_files self)
    | inl err =>
        exists name, nth_error (Zip.generated_files self) k = Some name /\
                     Zip.read self name w = (inl err, w)
    end.
Proof.
  destruct (read_loop_stops (Zip.generated_files self) self w)
    as (k & bs & r & Hl & Hf & Hres).
  exists k, bs, r. split; [|split; assumption].
  unfold Zip.read_generated, print_duration_time, bind. rewrite Hl.
  now destruct r as [err|[]].
Qed.

(** The second archive is missing: the batch of the first one stays. *)
Lemma read_generated_missing_file :
  exists batch,
    Zip.read_generated (zip_with_missing_file, world_with_one_archive)
    = (inl FileNotFoundError,
       ({| Zip.xml := small_helper;
           Zip.generated_files := ["0.zip"; "9.zip"];
           Zip.loaded_data := [batch] |}, world_with_one_archive)) /\
    length batch = 3%nat.
Proof. eexists. split; vm_compute; reflexivity. Qed.

(** ** Writing the tables *)

(** X9. [CSV.write] touches the two table files only: every other file
    and the random source are as before; on an empty list of batches it
    raises before anything is written. *)
Theorem write_touches_two_files
    (data : list (list dict)) (picks1 picks2 : list nat) (w : world) :
  rng (snd (CSV.write data picks1 picks2 w)) = rng w /\
  (forall name, name <> "levels.csv" -> name <> "objects.csv" ->
     fs (snd (CSV.write data picks1 picks2 w)) !! name = fs w !! name) /\
  (data = [] -> CSV.write data picks1 picks2 w = (inl ValueError, w)).
Proof.
  destruct data as [|batch data].
  - rewrite write_empty. auto.
  - rewrite write_nonempty. cbn [snd rng fs]. split; [reflexivity|]. split; [|discriminate].
    intros name H1 H2. rewrite lookup_insert_ne by congruence.
    now rewrite lookup_insert_ne by congruence.
Qed.

(** ** The three phases together *)

Lemma create_builds self prefix w :
  valid (Zip.xml self) ->
  built_archive (Zip.xml self) (zip_name prefix) (snd (Zip.create self prefix w)).
Proof.
  intros Hv.
  destruct (draw_all_total _ Hv (Z.to_nat (LXML.xml_count (Zip.xml self))) (rng w))
    as (rs & e' & Hd & Hlen).
  rewrite (create_built self prefix w rs e' Hd). cbn [snd].
  exists rs. cbn [fs]. split; [apply lookup_insert_eq|]. split; [exact Hlen|].
  pose proof (records_in_bounds (Zip.xml self) (rng w)) as Hb.
  unfold records_of in Hb. now rewrite Hd in Hb.
Qed.

Lemma create_keeps_built self prefix w name :
  valid (Zip.xml self) ->
  built_archive (Zip.xml self) name w ->
  built_archive (Zip.xml self) name (snd (Zip.create self prefix w)).
Proof.
  intros Hv Hw.
  destruct (String.eqb_spec (zip_name prefix) name) as [<-|Hne];
    [now apply create_builds|].
  destruct Hw as (rs & Hf & Hrs). exists rs. split; [|exact Hrs].
  rewrite <- Hf. now apply create_writes_one_file.
Qed.

Lemma run_keeps_built self order w name :
  valid (Zip.xml self) ->
  built_archive (Zip.xml self) name w ->
  built_archive (Zip.xml self) name (snd (Pool.run (Zip.create self) order w)).
Proof.
  intros Hv. revert w. induction order as [|[i x] order IH]; intros w Hw; [exact Hw|].
  cbn [Pool.run]. pose proof (create_keeps_built self x w name Hv Hw) as H1.
  destruct (Zip.create self x w) as [r w1]. cbn [snd] in H1.
  specialize (IH w1 H1). destruct (Pool.run _ order w1) as [rs w2]. exact IH.
Qed.

Lemma run_builds self order w i x :
  valid (Zip.xml self) -> In (i, x) order ->
  built_archive (Zip.xml self) (zip_name x) (snd (Pool.run (Zip.create self) order w)).
Proof.
  intros Hv. revert w. induction order as [|[j y] order IH]; intros w Hin; [contradiction|].
  cbn [Pool.run]. destruct Hin as [[= -> ->]|Hin].
  - pose proof (create_builds self x w Hv) as H1.
    destruct (Zip.create self x w) as [r w1]. cbn [snd] in H1.
    pose proof (run_keeps_built self order w1 _ Hv H1) as H2.
    destruct (Pool.run _ order w1) as [rs w2]. exact H2.
  - destruct (Zip.create self y w) as [r w1].
    specialize (IH w1 Hin). destruct (Pool.run _ order w1) as [rs w2]. exact IH.
Qed.

Lemma generate_files_builds self count picks w :
  valid (Zip.xml self) ->
  exists w',
    Zip.generate_files count picks (self, w)
    = (inr tt, ({| Zip.xml := Zip.xml self;
                   Zip.generated_files := List.map zip_name (range count);
                   Zip.loaded_data := Zip.loaded_data self |}, w')) /\
    Forall (fun name => built_archive (Zip.xml self) name w')
           (List.map zip_name (range count)).
Proof.
  intros Hv. unfold Zip.generate_files, print_duration_time, bind.
  pose proof (pool_map_values (Zip.create self) zip_name
                (fun x s => create_value self x s Hv) (range count) picks w) as Hval.
  assert (Harch : Forall (fun name => built_archive (Zip.xml self) name
                    (snd (Pool.map (Zip.create self) (range count) picks w)))
                    (List.map zip_name (range count))).
  { apply List.Forall_forall. intros name Hin.
    apply in_map_iff in Hin as (x & <- & Hx).
    apply In_nth_error in Hx as (i & Hi).
    unfold Pool.map.
    pose proof (run_builds self
                  (Pool.schedule picks (Pool.enumerate 0 (range count))) w i x Hv) as Hr.
    destruct (Pool.run _ _ w) as [done w1]. cbn [snd] in Hr.
    assert (built_archive (Zip.xml self) (zip_name x) w1).
    { apply Hr. eapply Permutation_in; [apply Permutation_sym, schedule_perm|].
      exact (enumerate_In (range count) 0%nat i x Hi). }
    now destruct (Pool.first_error done). }
  destruct (Pool.map (Zip.create self) (range count) picks w) as [r w1].
  cbn [fst snd] in *. subst r. exists w1. split; [reflexivity | exact Harch].
Qed.

Lemma read_built self cfg name w :
  built_archive cfg name w ->
  exists batch, Zip.read self name w = (inr batch, w) /\ decoded_batch cfg batch.
Proof.
  intros (rs & Hf & Hlen & Hb). exists (List.map decoded rs). split.
  - unfold Zip.read. rewrite Hf. now rewrite read_archive.
  - now exists rs.
Qed.

Lemma read_loop_built cfg names w : forall self,
  Forall (fun name => built_archive cfg name w) names ->
  exists batches,
    Zip.read_loop names (self, w)
    = (inr tt, ({| Zip.xml := Zip.xml self;
                   Zip.generated_files := Zip.generated_files self;
                   Zip.loaded_data := Zip.loaded_data self ++ batches |}, w)) /\
    length batches = length names /\
    Forall (decoded_batch cfg) batches.
Proof.
  induction names as [|name names IH]; intros self Hall.
  - exists []. cbn. rewrite List.app_nil_r. destruct self. repeat split; constructor.
  - apply Forall_cons in Hall as [Hname Hall].
    destruct (read_built self cfg name w Hname) as (batch & Hr & Hb).
    cbn [Zip.read_loop]. rewrite Hr.
    destruct (IH {| Zip.xml := Zip.xml self;
                    Zip.generated_files := Zip.generated_files self;
                    Zip.loaded_data := Zip.loaded_data self ++ [batch] |} Hall)
      as (bs & Hl & Hlen & Hbs).
    exists (batch :: bs). rewrite Hl. cbn [Zip.xml Zip.generated_files Zip.loaded_data].
    rewrite <- List.app_assoc. repeat split; [simpl; now rewrite Hlen|].
    constructor; assumption.
Qed.

Lemma decoded_batches_records cfg batches :
  Forall (decoded_batch cfg) batches ->
  length (List.concat batches) = (length batches * Z.to_nat (LXML.xml_count cfg))%nat /\
  Z.of_nat (length (List.concat batches)) <= Z.of_nat (object_count batches)
  <= Z.of_nat (length (List.concat batches)) * LXML.objects_max cfg.
Proof.
  unfold object_count.
  induction 1 as [|batch batches (rs & -> & Hlen & Hb) _ (IH1 & IH2)]; [cbn; lia|].
  cbn [List.concat length]. rewrite length_app, List.map_app, list_sum_app, length_map, IH1.
  split; [lia|]. rewrite <- IH1.
  assert (Hrs : Z.of_nat (length rs)
                <= Z.of_nat (list_sum (List.map (fun r => length (d_object_names r))
                                                (List.map decoded rs)))
                <= Z.of_nat (length rs) * LXML.objects_max cfg).
  { clear Hlen. induction Hb as [|r rs (_ & Hr) _ IHr]; [cbn; lia|].
    cbn [List.map length]. change (list_sum (?x :: ?l)) with (x + list_sum l)%nat.
    cbn [decoded d_object_names]. rewrite length_map. lia. }
  lia.
Qed.

(** X10. The three phases compose.  From a fresh [Zip] object over a
    valid configuration and for at least one archive: [generate_files]
    builds the archives, [read_generated] reads every one of them back
    as a batch of [xml_count] decoded records, and [CSV.write] of the
    loaded batches writes a levels table of [count * xml_count] rows and
    an objects table with at least as many rows and at most
    [objects_max] times as many, whatever the random source, the order
    of completion in the pool and the files that were there. *)
Theorem pipeline_composes
    (cfg : LXML.t) (count : Z) (picks picks1 picks2 : list nat) (w : world) :
  valid cfg -> 1 <= count ->
  exists zipper1 w1 zipper2 w2 levels objects,
    Zip.generate_files count picks (Zip.init cfg, w) = (inr tt, (zipper1, w1)) /\
    Zip.read_generated (zipper1, w1) = (inr tt, (zipper2, w1)) /\
    CSV.write (Zip.loaded_data zipper2) picks1 picks2 w1 = (inr tt, w2) /\
    Zip.generated_files zipper2 = List.map (fun i => str i +:+ ".zip") (range count) /\
    length (Zip.loaded_data zipper2) = Z.to_nat count /\
    Forall (decoded_batch cfg) (Zip.loaded_data zipper2) /\
    fs w2 !! "levels.csv" = Some (Table levels) /\
    fs w2 !! "objects.csv" = Some (Table objects) /\
    length (pandas.rows levels) = (Z.to_nat count * Z.to_nat (LXML.xml_count cfg))%nat /\
    Z.of_nat (length (pandas.rows levels)) <= Z.of_nat (length (pandas.rows objects))
    <= Z.of_nat (length (pandas.rows levels)) * LXML.objects_max cfg.
Proof.
  intros Hv Hc.
  destruct (generate_files_builds (Zip.init cfg) count picks w Hv) as (w1 & Hg & Hbuilt).
  cbn [Zip.init Zip.xml Zip.loaded_data] in Hg, Hbuilt.
  destruct (read_loop_built cfg (List.map zip_name (range count)) w1
              {| Zip.xml := cfg; Zip.generated_files := List.map zip_name (range count);
                 Zip.loaded_data := [] |} Hbuilt)
    as (batches & Hl & Hlen & Hb).
  cbn [Zip.xml Zip.generated_files Zip.loaded_data app] in Hl.
  rewrite length_map, range_length in Hlen.
  destruct (decoded_batches_records cfg batches Hb) as (Hrec & Hobj).
  destruct batches as [|batch batches]; [simpl in Hlen; lia|].
  eexists _, w1, _, _, _, _.
  split; [exact Hg|].
  split.
  { unfold Zip.read_generated, print_duration_time, bind.
    cbn [Zip.generated_files]. rewrite Hl. reflexivity. }
  cbn [Zip.loaded_data Zip.generated_files].
  split; [apply write_nonempty|]. split; [reflexivity|].
  split; [exact Hlen|]. split; [exact Hb|]. cbn [fs].
  split; [rewrite lookup_insert_ne by discriminate; apply lookup_insert_eq|].
  split; [apply lookup_insert_eq|]. cbn [pandas.rows].
  rewrite level_rows_length, object_rows_length, Hrec, Hlen.
  split; [reflexivity|]. rewrite <- Hlen, <- Hrec. exact Hobj.
Qed.

Lemma pipeline_composes_witness :
  valid small_helper /\ 1 <= 2 /\
  exists zipper1 w1 zipper2 w2 levels objects,
    Zip.generate_files 2 [1%nat] (Zip.init small_helper, small_world)
    = (inr tt, (zipper1, w1)) /\
    Zip.read_generated (zipper1, w1) = (inr tt, (zipper2, w1)) /\
    CSV.write (Zip.loaded_data zipper2) [] [1%nat] w1 = (inr tt, w2) /\
    Zip.generated_files zipper2 = ["0.zip"; "1.zip"] /\
    length (Zip.loaded_data zipper2) = 2%nat /\
    Forall (decoded_batch small_helper) (Zip.loaded_data zipper2) /\
    fs w2 !! "levels.csv" = Some (Table levels) /\
    fs w2 !! "objects.csv" = Some (Table objects) /\
    length (pandas.rows levels) = 6%nat /\
    Z.of_nat (length (pandas.rows levels)) <= Z.of_nat (length (pandas.rows objects))
    <= Z.of_nat (length (pandas.rows levels)) * 10.
Proof.
  assert (Hc : 1 <= 2) by lia.
  split; [exact valid_small_helper|]. split; [exact Hc|].
  exact (pipeline_composes small_helper 2 [1%nat] [] [1%nat] small_world
           valid_small_helper Hc).
Defined.


(** ** A random source that repeats *)

Lemma replicateM_const {S A} (m : M S A) (x : A) (st : nat -> S) (d : nat) :
  (forall p, m (st p) = (inr x, st (p + d)%nat)) ->
  forall n p, replicateM n m (st p) = (inr (repeat x n), st (p + n * d)%nat).
Proof.
  intros Hm. induction n as [|n IH]; intros p; cbn [replicateM repeat].
  - unfold ret. now rewrite Nat.add_0_r.
  - unfold bind. rewrite Hm, IH. unfold ret. do 2 f_equal. lia.
Qed.

Lemma random_byte_const c p :
  random_byte (const_tape c p) = (inr (c mod 256), const_tape c (p + 1)).
Proof.
  unfold random_byte, bind, next_draw, ret, const_tape. cbn. do 3 f_equal. lia.
Qed.

Lemma urandom_const c k p :
  0 <= k ->
  urandom k (const_tape c p)
  = (inr (repeat (c mod 256) (Z.to_nat k)), const_tape c (p + Z.to_nat k)).
Proof.
  intros Hk. unfold urandom. destruct (Z.ltb_spec k 0) as [H|_]; [lia|].
  rewrite (replicateM_const random_byte (c mod 256) (const_tape c) 1
             (random_byte_const c)).
  do 2 f_equal. lia.
Qed.

Lemma randbelow_const c n p :
  0 < n -> randbelow n (const_tape c p) = (inr (c mod n), const_tape c (p + 1)).
Proof.
  intros Hn. unfold randbelow. destruct (Z.leb_spec n 0) as [H|_]; [lia|].
  unfold bind, next_draw, ret, const_tape. cbn. do 3 f_equal. lia.
Qed.

Lemma draw_const self c :
  valid self ->
  exists d, forall q,
    LXML.draw self (const_tape c q) = (inr (const_record self c), const_tape c (q + d)).
Proof.
  intros (Ho & Hl & Hn & Ht).
  exists (1 + Z.to_nat (c mod LXML.objects_max self + 1) * Z.to_nat (LXML.name_length self)
          + Z.to_nat (LXML.token_length self) + 1)%nat.
  intros q. unfold LXML.draw, bind.
  rewrite randbelow_const by exact Ho.
  rewrite (replicateM_const (token_urlsafe (LXML.name_length self))
             (urlsafe_text (repeat (c mod 256) (Z.to_nat (LXML.name_length self))))
             (const_tape c) (Z.to_nat (LXML.name_length self))).
  2:{ intros p0. unfold token_urlsafe, token_bytes, bind.
      now rewrite urandom_const by exact Hn. }
  unfold token_hex, token_bytes, bind. rewrite urandom_const by exact Ht.
  unfold ret. rewrite randbelow_const by exact Hl.
  unfold const_record. do 2 f_equal. lia.
Qed.

Lemma draw_all_const self c :
  valid self ->
  forall n p, fst (fst (LXML.draw_all self n (const_tape c p)))
              = repeat (const_record self c) n.
Proof.
  intros Hv. destruct (draw_const self c Hv) as (d & Hd).
  induction n as [|n IH]; intros p; [reflexivity|].
  cbn [LXML.draw_all repeat]. rewrite Hd. specialize (IH (p + d)%nat).
  destruct (LXML.draw_all self n (const_tape c (p + d))) as [[rs x] e2].
  cbn [fst] in *. now rewrite IH.
Qed.

(** X12. No uniqueness is enforced on what is generated: from a random
    source that repeats itself [LXML.generate] draws the same record,
    the same id included, in every turn. *)
Theorem generate_does_not_deduplicate (self : LXML.t) (c : Z) (p : nat) :
  valid self ->
  records_of self (const_tape c p)
  = repeat (const_record self c) (Z.to_nat (LXML.xml_count self)).
Proof. intros Hv. unfold records_of. now apply draw_all_const. Qed.

Lemma generate_does_not_deduplicate_witness :
  valid small_helper /\
  records_of small_helper (const_tape 77 0)
  = [const_record small_helper 77; const_record small_helper 77;
     const_record small_helper 77].
Proof.
  split; [exact valid_small_helper|].
  exact (generate_does_not_deduplicate small_helper 77 0 valid_small_helper).
Defined.

(** ** Documents that hold more than the program writes *)




(** ** No archive at all *)

Lemma pool_map_nil {S A B} (f : A -> M S B) picks (s : S) :
  Pool.map f [] picks s = (inr [], s).
Proof.
  unfold Pool.map. cbn [Pool.enumerate length].
  assert (E : Pool.schedule picks (@nil (nat * A)) = []).
  { destruct picks as [|k picks]; [reflexivity|]. cbn [Pool.schedule].
    now destruct (k mod length (@nil (nat * A)))%nat. }
  rewrite E. reflexivity.
Qed.

Lemma range_nonpos count : count <= 0 -> range count = [].
Proof. intros H. unfold range. now replace (Z.to_nat count) with 0%nat by lia. Qed.

(** X14. With a count that is not positive nothing is built and nothing
    is drawn, whatever the configuration: [generate_files] returns with
    an empty [generated_files], [read_generated] then loads nothing, and
    [CSV.write] of the empty [loaded_data] raises [ValueError] without
    writing a file. *)
Theorem pipeline_without_archives
    (cfg : LXML.t) (count : Z) (picks picks1 picks2 : list nat) (w : world) :
  count <= 0 ->
  Zip.generate_files count picks (Zip.init cfg, w) = (inr tt, (Zip.init cfg, w)) /\
  Zip.read_generated (Zip.init cfg, w) = (inr tt, (Zip.init cfg, w)) /\
  CSV.write (Zip.loaded_data (Zip.init cfg)) picks1 picks2 w = (inl ValueError, w).
Proof.
  intros Hc. split; [|split].
  - unfold Zip.generate_files, print_duration_time, bind.
    now rewrite (range_nonpos count Hc), pool_map_nil.
  - reflexivity.
  - apply write_empty.
Qed.

Lemma pipeline_without_archives_witness :
  0 <= 0 /\
  Zip.generate_files 0 [3%nat] (Zip.init broken_helper, small_world)
  = (inr tt, (Zip.init broken_helper, small_world)) /\
  Zip.read_generated (Zip.init broken_helper, small_world)
  = (inr tt, (Zip.init broken_helper, small_world)) /\
  CSV.write [] [] [] small_world = (inl ValueError, small_world).
Proof.
  assert (Hc : 0 <= 0) by lia.
  split; [exact Hc|].
  exact (pipeline_without_archives broken_helper 0 [3%nat] [] [] small_world Hc).
Defined.

(** X15. The names of the archives of one run are pairwise distinct, so
    that no task of [generate_files] overwrites the archive of another;
    the same holds for the member names within an archive. *)
Theorem archive_names_distinct (count : Z) :
  NoDup (List.map (fun i => str i +:+ ".zip") (range count)) /\
  NoDup (List.map (fun i => str i +:+ ".xml") (range count)).
Proof.
  assert (Hr : NoDup (range count)).
  { unfold range. apply NoDup_fmap_2; [|apply NoDup_seq].
    intros a b H. lia. }
  split; (apply NoDup_fmap_2; [|exact Hr]); intros a b H.
  - now apply zip_name_inj.
  - now apply member_name_inj.
Qed.

(** ** The order of the entries does not matter *)

Lemma find_unique {A} (f : A -> bool) (l : list A) (x : A) :
  In x l -> f x = true -> (forall y, In y l -> f y = true -> y = x) ->
  List.find f l = Some x.
Proof.
  intros Hin Hfx Hu. destruct (List.find f l) as [y|] eqn:E.
  - apply find_some in E as [Hy Hfy]. f_equal. now apply Hu.
  - apply (find_none _ _ E) in Hin. congruence.
Qed.

Lemma descendants_encode r :
  descendants (LXML.encode r)
  = Elem "var" [("name", "id"); ("value", rec_id r)] []
    :: Elem "var" [("name", "level"); ("value", str (rec_level r))] []
    :: Elem "objects" []
         (List.map (fun n => Elem "object" [("name", n)] []) (rec_objects r))
    :: List.map (fun n => Elem "object" [("name", n)] []) (rec_objects r).
Proof.
  unfold descendants, LXML.encode. cbn [children flat_map iter app].
  do 3 f_equal. rewrite List.app_nil_r.
  induction (rec_objects r) as [|n l IH]; [reflexivity|].
  cbn [List.map flat_map iter app]. now rewrite IH.
Qed.

Lemma object_not_var n (names : list string) x :
  In x (List.map (fun n => Elem "object" [("name", n)] []) names) ->
  is_var n x = false.
Proof. intros H. apply in_map_iff in H as (m & <- & _). reflexivity. Qed.

Lemma var_unique_encode r n x :
  In x (descendants (LXML.encode r)) -> is_var n x = true ->
  List.find (is_var n) (descendants (LXML.encode r)) = Some x.
Proof.
  intros Hin Hx. apply find_unique; [exact Hin | exact Hx|].
  intros y Hy Hfy. rewrite descendants_encode in Hin, Hy.
  assert (Hcases : forall z,
            In z (Elem "var" [("name", "id"); ("value", rec_id r)] []
                  :: Elem "var" [("name", "level"); ("value", str (rec_level r))] []
                  :: Elem "objects" []
                       (List.map (fun n => Elem "object" [("name", n)] []) (rec_objects r))
                  :: List.map (fun n => Elem "object" [("name", n)] []) (rec_objects r)) ->
            is_var n z = true ->
            (n = "id" /\ z = Elem "var" [("name", "id"); ("value", rec_id r)] []) \/
            (n = "level" /\
             z = Elem "var" [("name", "level"); ("value", str (rec_level r))] [])).
  { intros z [<-|[<-|[<-|Hz]]] Hz'.
    - left. split; [|reflexivity]. unfold is_var in Hz'. cbn in Hz'.
      symmetry. now apply String.eqb_eq.
    - right. split; [|reflexivity]. unfold is_var in Hz'. cbn in Hz'.
      symmetry. now apply String.eqb_eq.
    - discriminate.
    - rewrite (object_not_var n _ z Hz) in Hz'. discriminate. }
  destruct (Hcases x Hin Hx) as [[-> ->]|[-> ->]];
    destruct (Hcases y Hy Hfy) as [[E ->]|[E ->]]; try reflexivity; discriminate.
Qed.

Lemma wf_tree_perm cs cs' :
  Permutation cs cs' -> forallb wf_tree cs = true -> forallb wf_tree cs' = true.
Proof.
  intros Hp H. apply List.forallb_forall. intros x Hx.
  rewrite List.forallb_forall in H. apply H.
  eapply Permutation_in; [apply Permutation_sym, Hp | exact Hx].
Qed.

(** X16. Decoding does not depend on the order in which the root holds
    its three entries: the entries of the document of a record, written
    in any order, decode to the same dictionary. *)
Theorem read_any_entry_order (r : record) (cs : list Element) :
  Permutation cs (children (LXML.encode r)) ->
  LXML.read (tostring (Elem "root" [] cs)) = inr (decoded r).
Proof.
  intros Hp. unfold LXML.read.
  rewrite parse_tostring_wf.
  2:{ cbn [wf_tree]. apply andb_true_intro. split; [reflexivity|].
      apply (wf_tree_perm (children (LXML.encode r)) cs (Permutation_sym Hp)).
      pose proof (wf_encode r) as H. cbn [wf_tree LXML.encode] in H.
      apply andb_prop in H as [_ H]. exact H. }
  assert (Hd : Permutation (descendants (Elem "root" [] cs))
                           (descendants (LXML.encode r))).
  { unfold descendants at 1 2. cbn [children].
    apply Permutation_flat_map, Hp. }
  assert (Hfind : forall n x,
            find_var n (LXML.encode r) = Some x ->
            find_var n (Elem "root" [] cs) = Some x).
  { intros n x Hx. unfold find_var in *. fold (is_var n) in *.
    apply find_some in Hx as [Hin Hfx].
    apply find_unique; [eapply Permutation_in; [apply Permutation_sym, Hd | exact Hin]
                       | exact Hfx |].
    intros y Hy Hfy.
    assert (Hy' : In y (descendants (LXML.encode r)))
      by (eapply Permutation_in; [exact Hd | exact Hy]).
    pose proof (var_unique_encode r n x Hin Hfx) as E1.
    pose proof (var_unique_encode r n y Hy' Hfy) as E2. congruence. }
  rewrite (Hfind "id" _ (find_id_encode r)), (Hfind "level" _ (find_level_encode r)).
  assert (Ho : find_child "objects" (Elem "root" [] cs)
               = Some (Elem "objects" []
                         (List.map (fun n => Elem "object" [("name", n)] [])
                                   (rec_objects r)))).
  { unfold find_child. cbn [children]. apply find_unique.
    - eapply Permutation_in; [apply Permutation_sym, Hp|].
      cbn. right. right. now left.
    - reflexivity.
    - intros y Hy Hfy.
      assert (Hy' : In y (children (LXML.encode r)))
        by (eapply Permutation_in; [exact Hp | exact Hy]).
      cbn in Hy'. destruct Hy' as [<-|[<-|[<-|[]]]]; try discriminate. reflexivity. }
  rewrite Ho. unfold iter_tag, decoded. cbn [iter List.filter tag].
  change (String.eqb "objects" "object") with false. cbv iota.
  rewrite iter_objects, names_of_objects. reflexivity.
Qed.

Lemma read_any_entry_order_witness :
  Permutation reordered_entries (children (LXML.encode some_record)) /\
  LXML.read (tostring (Elem "root" [] reordered_entries)) = inr (decoded some_record).
Proof.
  assert (H : Permutation reordered_entries (children (LXML.encode some_record))).
  { cbn. eapply Permutation_trans; [apply perm_swap|].
    eapply Permutation_trans; [apply perm_skip, perm_swap|].
    eapply Permutation_trans; [apply perm_swap|]. apply Permutation_refl. }
  split; [exact H|].
  exact (read_any_entry_order some_record reordered_entries H).
Defined.

(** ** One dictionary per member *)

Lemma read_members_length zf names ds :
  Zip.read_members zf names = inr ds ->
  Forall2 (fun name d => exists f, zipfile.open zf name = Some f /\ LXML.read f = inr d)
          names ds.
Proof.
  revert ds. induction names as [|n names IH]; intros ds H; cbn [Zip.read_members] in H.
  - injection H as <-. constructor.
  - destruct (zipfile.open zf n) as [f|] eqn:Ef; [|discriminate].
    destruct (LXML.read f) as [err|d] eqn:Er; [discriminate|].
    destruct (Zip.read_members zf names) as [err|ds'] eqn:Em; [discriminate|].
    injection H as <-. constructor; [eauto | now apply IH].
Qed.

(** X17. When [Zip.read] returns, the file is an archive, the world is
    unchanged, and the list has one dictionary per member, in directory
    order: the [i]-th dictionary is what [LXML.read] gives for the
    contents opened under the [i]-th member name. *)
Theorem read_one_dict_per_member
    (self : Zip.t) (zip_file : string) (w w' : world) (ds : list dict) :
  Zip.read self zip_file w = (inr ds, w') ->
  w' = w /\
  exists zf,
    fs w !! zip_file = Some (Archive zf) /\
    length ds = length zf /\
    Forall2 (fun name d => exists f, zipfile.open zf name = Some f /\ LXML.read f = inr d)
            (zipfile.namelist zf) ds.
Proof.
  unfold Zip.read. destruct (fs w !! zip_file) as [[zf|df]|]; try discriminate.
  intros H. injection H as Hm <-. split; [reflexivity|].
  exists zf. split; [reflexivity|].
  pose proof (read_members_length zf _ ds Hm) as HF. split; [|exact HF].
  apply Forall2_length in HF. unfold zipfile.namelist in HF.
  now rewrite length_map in HF.
Qed.

Lemma read_one_dict_per_member_witness :
  Zip.read (Zip.init small_helper) "0.zip" world_with_one_archive
  = (inr (List.map decoded (records_of small_helper tape0)), world_with_one_archive) /\
  world_with_one_archive = world_with_one_archive /\
  exists zf,
    fs world_with_one_archive !! "0.zip" = Some (Archive zf) /\
    length (List.map decoded (records_of small_helper tape0)) = length zf /\
    Forall2 (fun name d => exists f, zipfile.open zf name = Some f /\ LXML.read f = inr d)
            (zipfile.namelist zf) (List.map decoded (records_of small_helper tape0)).
Proof.
  assert (H : Zip.read (Zip.init small_helper) "0.zip" world_with_one_archive
              = (inr (List.map decoded (records_of small_helper tape0)),
                 world_with_one_archive))
    by (vm_compute; reflexivity).
  split; [exact H|].
  exact (read_one_dict_per_member (Zip.init small_helper) "0.zip"
           world_with_one_archive world_with_one_archive _ H).
Defined.
